(** * findhorizon: trapped surfaces of axisymmetric Brill-Lindquist data

    A shallow embedding of [findhorizon.py].  Floating-point numbers are read
    as real numbers ([R]), numpy arrays as lists, Python exceptions as an
    error monad, and the attributes of a [trappedsurface] object as a record
    threaded through a state monad.  The scipy routines ([ode] with the
    "dopri5" integrator, [brentq], [root]) are external: they are the methods
    of the [Numerics] class and every definition is generic in them. *)

From Stdlib Require Import Reals Lra Lia List Bool Arith Sorted.
Import ListNotations.
Open Scope R_scope.

(* ================================================================== *)
(** * Python runtime: exceptions, indexing, loops *)

Inductive exception : Type :=
| IndexError
| ValueError
| RuntimeError
| AttributeError
| TypeError.

Inductive result (A : Type) : Type :=
| Ok (a : A)
| Raise (e : exception).
Arguments Ok {A} a.
Arguments Raise {A} e.

Definition rbind {A B} (r : result A) (k : A -> result B) : result B :=
  match r with
  | Ok a => k a
  | Raise e => Raise e
  end.

Notation "x <- c ;; k" := (rbind c (fun x => k))
  (at level 61, c at next level, right associativity).
Notation "' pat <- c ;; k" := (rbind c (fun x => match x with pat => k end))
  (at level 61, pat pattern, c at next level, right associativity).

(** [a[i]] for a non-negative index. *)
Definition getitem {A} (a : list A) (i : nat) : result A :=
  match nth_error a i with
  | Some v => Ok v
  | None => Raise IndexError
  end.

Fixpoint list_set {A} (a : list A) (i : nat) (v : A) : list A :=
  match a, i with
  | [], _ => []
  | _ :: tl, O => v :: tl
  | hd :: tl, S j => hd :: list_set tl j v
  end.

(** [a[i] = v]: raises outside the array. *)
Definition setitem {A} (a : list A) (i : nat) (v : A) : result (list A) :=
  if (i <? length a)%nat then Ok (list_set a i v) else Raise IndexError.

(** [range(n)]. *)
Definition range (n : nat) : list nat := seq 0 n.

(** [for i in idx: s = body(i, s)]. *)
Fixpoint for_range {S} (idx : list nat) (body : nat -> S -> result S) (s : S)
  : result S :=
  match idx with
  | [] => Ok s
  | i :: rest =>
      match body i s with
      | Ok s' => for_range rest body s'
      | Raise e => Raise e
      end
  end.

(** [np.zeros_like(a)]. *)
Definition zeros_like {A} (a : list A) : list R := repeat 0 (length a).

Definition Rltb (x y : R) : bool := if Rlt_dec x y then true else false.
Definition Rgeb (x y : R) : bool := if Rge_dec x y then true else false.

(* ================================================================== *)
(** * The data model *)

(** [class spacetime]. *)
Record spacetime : Type := {
  reflection_symmetric : bool;
  z_positions : list R;
  masses : list R;
  N : nat
}.

(** [spacetime.__init__]; [reflection_symmetric] defaults to [False]. *)
Definition spacetime_init (zs ms : list R) (sym : bool) : spacetime :=
  {| reflection_symmetric := sym;
     z_positions := zs;
     masses := ms;
     N := length zs |}.

(** The vector [(h, h')]. *)
Definition SurfaceState : Type := (R * R)%type.

(** The attributes [x], [z], [X], [Y], [Z], [R] that
    [convert_to_cartesian] assigns. *)
Record cartesian : Type := {
  ct_x : list R;
  ct_z : list R;
  ct_X : list (list R);
  ct_Y : list (list R);
  ct_Z : list (list R);
  ct_R : list (list R)
}.

(** [class trappedsurface].  The attributes [r0], [H], [theta] and the
    cartesian ones do not exist until the method that assigns them has
    run. *)
Record trappedsurface : Type := {
  z_centre : R;
  ts_spacetime : spacetime;
  r0 : option (list R);
  ts_H : option (list SurfaceState);
  ts_theta : option (list R);
  ts_cartesian : option cartesian
}.

(** [trappedsurface.__init__]; [z_centre] defaults to [0.0]. *)
Definition trappedsurface_init (st : spacetime) (zc : R) : trappedsurface :=
  {| z_centre := zc; ts_spacetime := st;
     r0 := None; ts_H := None; ts_theta := None;
     ts_cartesian := None |}.

(* ================================================================== *)
(** * [trappedsurface.expansion] *)

(** The body of the first loop: [distance_i[i] = sqrt(...)]. *)
Definition distance_body (h theta : R) (z_i : list R) (i : nat)
  (distance_i : list R) : result (list R) :=
  zi <- getitem z_i i ;;
  setitem distance_i i
    (sqrt ((h * sin theta) ^ 2 + (h * cos theta - zi) ^ 2)).

(** The body of the second loop: the three [+=] lines. *)
Definition psi_body (h theta : R) (z_i m_i distance_i : list R) (i : nat)
  (acc : R * R * R) : result (R * R * R) :=
  let '(psi, dpsi_dr, dpsi_dtheta) := acc in
  mi <- getitem m_i i ;;
  di <- getitem distance_i i ;;
  let psi := psi + 0.5 * mi / di in
  mi <- getitem m_i i ;;
  zi <- getitem z_i i ;;
  di <- getitem distance_i i ;;
  let dpsi_dr := dpsi_dr + 0.5 * mi * (zi * cos theta - h) / di ^ 3 in
  mi <- getitem m_i i ;;
  zi <- getitem z_i i ;;
  di <- getitem distance_i i ;;
  let dpsi_dtheta :=
    dpsi_dtheta + 0.5 * mi * h * (- zi * sin theta) / di ^ 3 in
  Ok (psi, dpsi_dr, dpsi_dtheta).

Definition expansion (self : trappedsurface) (theta : R) (H : SurfaceState)
  : result SurfaceState :=
  let h := fst H in
  let dhdtheta := snd H in
  let z_i := map (fun z => z - z_centre self)
                 (z_positions (ts_spacetime self)) in
  let m_i := masses (ts_spacetime self) in
  distance_i <- for_range (range (length z_i))
                  (distance_body h theta z_i) (zeros_like z_i) ;;
  let C := 1 / sqrt (1 + (dhdtheta / h) ^ 2) in
  let cot_theta_dhdtheta_C2 :=
    if Rltb (Rabs theta) 1e-16 || Rltb (Rabs (theta - PI)) 1e-16
    then 0
    else dhdtheta / (tan theta * C ^ 2) in
  '(psi, dpsi_dr, dpsi_dtheta) <-
    for_range (range (length m_i))
      (psi_body h theta z_i m_i distance_i) (1, 0, 0) ;;
  Ok (dhdtheta,
      2 * h - cot_theta_dhdtheta_C2
      + 4 * h ^ 2 / (psi * C ^ 2)
        * (dpsi_dr - dpsi_dtheta * dhdtheta / h ^ 2)
      + 3 * dhdtheta ^ 2 / h).

(** ** The right-hand side as the specification words it *)

Definition spec_dist (h theta zi : R) : R :=
  sqrt ((h * sin theta) ^ 2 + (h * cos theta - zi) ^ 2).

Definition Rsum (l : list R) : R := fold_right Rplus 0 l.

(** [psi = 1 + sum_i 0.5 m_i / dist_i], over the singularities [(m_i, z_i)]. *)
Definition spec_psi (h theta : R) (sing : list (R * R)) : R :=
  1 + Rsum (map (fun mz => 0.5 * fst mz / spec_dist h theta (snd mz)) sing).

Definition spec_dpsi_dr (h theta : R) (sing : list (R * R)) : R :=
  Rsum (map (fun mz => 0.5 * fst mz * (snd mz * cos theta - h)
                       / spec_dist h theta (snd mz) ^ 3) sing).

Definition spec_dpsi_dtheta (h theta : R) (sing : list (R * R)) : R :=
  Rsum (map (fun mz => 0.5 * fst mz * h * (- snd mz * sin theta)
                       / spec_dist h theta (snd mz) ^ 3) sing).

Definition spec_C (h dh : R) : R := 1 / sqrt (1 + (dh / h) ^ 2).

(** The singularities of a surface: masses paired with axial positions
    relative to the centre of the polar coordinates. *)
Definition singularities (self : trappedsurface) : list (R * R) :=
  combine (masses (ts_spacetime self))
          (map (fun z => z - z_centre self) (z_positions (ts_spacetime self))).

(** [theta] is within [1e-16] of the axis ([0] or [pi]). *)
Definition on_axis (theta : R) : Prop :=
  Rabs theta < 1e-16 \/ Rabs (theta - PI) < 1e-16.

(** [d2h/dtheta2] out of a given cot-term. *)
Definition spec_d2h (h dh theta cot : R) (sing : list (R * R)) : R :=
  2 * h - cot
  + 4 * h ^ 2 / (spec_psi h theta sing * spec_C h dh ^ 2)
    * (spec_dpsi_dr h theta sing - spec_dpsi_dtheta h theta sing * dh / h ^ 2)
  + 3 * dh ^ 2 / h.

(** One pass of the second loop on the singularity [(m, z)]. *)
Definition psi_step (h theta : R) (acc : R * R * R) (mz : R * R)
  : R * R * R :=
  let '(psi, dpsi_dr, dpsi_dtheta) := acc in
  (psi + 0.5 * fst mz / spec_dist h theta (snd mz),
   dpsi_dr + 0.5 * fst mz * (snd mz * cos theta - h)
             / spec_dist h theta (snd mz) ^ 3,
   dpsi_dtheta + 0.5 * fst mz * h * (- snd mz * sin theta)
                 / spec_dist h theta (snd mz) ^ 3).

(* ================================================================== *)
(** * The scipy routines the module imports *)

(** What [scipy.optimize.root] returns: the last iterate [x], whether the
    solver converged, and the residual [fun] at [x]. *)
Record OptimizeResult : Type := {
  opt_x : list R;
  opt_success : bool;
  opt_fun : list R
}.

Definition rhs : Type := R -> SurfaceState -> result SurfaceState.

(** - [dopri5 f atol rtol y t t1]: one call of the adaptive Dormand-Prince
      integrator from [(t, y)] towards [t1]; returns the state and the angle
      it stopped at and whether it succeeded.  An exception of [f] comes out
      as [Raise].
    - [brentq f a b]: the bracketed scalar root solver.
    - [root f x0 tol]: the multidimensional nonlinear root solver. *)
Class Numerics : Type := {
  dopri5 : rhs -> R -> R -> SurfaceState -> R -> R
           -> result (SurfaceState * R * bool);
  brentq : (R -> result R) -> R -> R -> result R;
  root : (list R -> result (list R)) -> list R -> R -> result OptimizeResult
}.

(** ** Contracts of the routines *)

(** [brentq] raises [ValueError] when [f(a)] and [f(b)] have the same sign. *)
Definition brentq_requires_sign_change (num : Numerics) : Prop :=
  forall f a b fa fb,
    f a = Ok fa -> f b = Ok fb -> 0 < fa * fb ->
    brentq f a b = Raise ValueError.

(** The [x] that [root] returns has the shape of the initial guess. *)
Definition root_keeps_shape (num : Numerics) : Prop :=
  forall f x0 tol sol, root f x0 tol = Ok sol ->
    length (opt_x sol) = length x0.

(** Every integration of the right-hand side [f] under tolerances
    [atol], [rtol] succeeds and stops at the requested angle. *)
Definition dopri5_reaches (num : Numerics) (f : rhs) (atol rtol : R) : Prop :=
  forall y t t1, exists y', dopri5 f atol rtol y t t1 = Ok (y', t1, true).

(** ** [scipy.integrate.ode] *)

Record ode : Type := {
  ode_f : rhs;
  ode_atol : R;
  ode_rtol : R;
  ode_y : SurfaceState;
  ode_t : R;
  ode_success : bool
}.

(** [ode(f)]; the tolerances are the defaults of "dopri5". *)
Definition ode_new (f : rhs) : ode :=
  {| ode_f := f; ode_atol := 1e-12; ode_rtol := 1e-6;
     ode_y := (0, 0); ode_t := 0; ode_success := true |}.

(** [solver.set_integrator("dopri5", atol=.., rtol=..)]. *)
Definition set_integrator (s : ode) (atol rtol : R) : ode :=
  {| ode_f := ode_f s; ode_atol := atol; ode_rtol := rtol;
     ode_y := ode_y s; ode_t := ode_t s; ode_success := true |}.

(** [solver.set_initial_value(y, t)]. *)
Definition set_initial_value (s : ode) (y : SurfaceState) (t : R) : ode :=
  {| ode_f := ode_f s; ode_atol := ode_atol s; ode_rtol := ode_rtol s;
     ode_y := y; ode_t := t; ode_success := true |}.

(** [solver.integrate(t1)]. *)
Definition integrate {num : Numerics} (s : ode) (t1 : R) : result ode :=
  '(y, t, ok) <- dopri5 (ode_f s) (ode_atol s) (ode_rtol s)
                   (ode_y s) (ode_t s) t1 ;;
  Ok {| ode_f := ode_f s; ode_atol := ode_atol s; ode_rtol := ode_rtol s;
        ode_y := y; ode_t := t; ode_success := ok |}.

(** [solver.successful()]. *)
Definition successful (s : ode) : bool := ode_success s.

(** The four lines that set a solver up. *)
Definition new_solver (self : trappedsurface) (H0 : SurfaceState) (t0 : R)
  : ode :=
  set_initial_value (set_integrator (ode_new (expansion self)) 1e-8 1e-6)
    H0 t0.

(* ================================================================== *)
(** * The shooting objectives *)

Section Shooting.
Context {num : Numerics}.

Definition shooting_function_full (self : trappedsurface) (r0 : list R)
  : result (list R) :=
  (* First half of the horizon *)
  r0_0 <- getitem r0 0 ;;
  let H0 := (r0_0, 0) in
  let solver1 := new_solver self H0 0 in
  solver1 <- integrate solver1 (PI / 2) ;;
  (* Second half of the horizon *)
  r0_1 <- getitem r0 1 ;;
  let H0 := (r0_1, 0) in
  let solver2 := new_solver self H0 PI in
  solver2 <- integrate solver2 (PI / 2) ;;
  Ok [fst (ode_y solver1) - fst (ode_y solver2);
      snd (ode_y solver1) - snd (ode_y solver2)].

Definition shooting_function (self : trappedsurface) (r0 : R) : result R :=
  let H0 := (r0, 0) in
  let solver1 := new_solver self H0 0 in
  solver1 <- integrate solver1 (PI / 2) ;;
  Ok (snd (ode_y solver1)).

End Shooting.

(* ================================================================== *)
(** * Methods that assign attributes *)

(** A call of a root solver, with its arguments: the trace of calls is kept
    beside the object so that statements can say which solver ran. *)
Inductive solver_call : Type :=
| CallBrentq (f : R -> result R) (a b : R)
| CallRoot (f : list R -> result (list R)) (x0 : list R) (tol : R).

Record world : Type := {
  self : trappedsurface;
  calls : list solver_call
}.

(** Methods run in a state monad over [world] with exceptions; an exception
    leaves the assignments made before it in place. *)
Definition M (A : Type) : Type := world -> result A * world.

Definition mret {A} (a : A) : M A := fun w => (Ok a, w).

Definition mbind {A B} (m : M A) (k : A -> M B) : M B :=
  fun w =>
    match m w with
    | (Ok a, w') => k a w'
    | (Raise e, w') => (Raise e, w')
    end.

Definition lift {A} (r : result A) : M A := fun w => (r, w).

Definition get_self : M trappedsurface := fun w => (Ok (self w), w).

Definition record_call (c : solver_call) : M unit :=
  fun w => (Ok tt, {| self := self w; calls := calls w ++ [c] |}).

(** The object after [self.r0 = v]. *)
Definition with_r0 (me : trappedsurface) (v : list R) : trappedsurface :=
  {| z_centre := z_centre me; ts_spacetime := ts_spacetime me;
     r0 := Some v;
     ts_H := ts_H me; ts_theta := ts_theta me;
     ts_cartesian := ts_cartesian me |}.

(** The object after [self.H = vH; self.theta = vtheta]. *)
Definition with_H_theta (me : trappedsurface) (vH : list SurfaceState)
  (vtheta : list R) : trappedsurface :=
  {| z_centre := z_centre me; ts_spacetime := ts_spacetime me;
     r0 := r0 me;
     ts_H := Some vH; ts_theta := Some vtheta;
     ts_cartesian := ts_cartesian me |}.

(** The object after the assignments of [convert_to_cartesian]. *)
Definition with_cartesian (me : trappedsurface) (c : cartesian)
  : trappedsurface :=
  {| z_centre := z_centre me; ts_spacetime := ts_spacetime me;
     r0 := r0 me;
     ts_H := ts_H me; ts_theta := ts_theta me;
     ts_cartesian := Some c |}.

Definition set_r0 (v : list R) : M unit :=
  fun w => (Ok tt, {| self := with_r0 (self w) v; calls := calls w |}).

Definition set_H_theta (vH : list SurfaceState) (vtheta : list R) : M unit :=
  fun w =>
    (Ok tt, {| self := with_H_theta (self w) vH vtheta; calls := calls w |}).

Definition set_cartesian (c : cartesian) : M unit :=
  fun w => (Ok tt, {| self := with_cartesian (self w) c; calls := calls w |}).

(** Reading an attribute that was never assigned. *)
Definition getattr {A} (field : trappedsurface -> option A) : M A :=
  fun w =>
    match field (self w) with
    | Some v => (Ok v, w)
    | None => (Raise AttributeError, w)
    end.

(** [try: body / except ValueError: handler]. *)
Definition try_except_ValueError {A} (body handler : M A) : M A :=
  fun w =>
    match body w with
    | (Raise ValueError, w') => handler w'
    | other => other
    end.

Declare Scope method_scope.
Delimit Scope method_scope with method.
Notation "x <- c ;; k" := (mbind c (fun x => k))
  (at level 61, c at next level, right associativity) : method_scope.
Notation "c ;;; k" := (mbind c (fun _ => k))
  (at level 61, right associativity) : method_scope.

Section Methods.
Context {num : Numerics}.

Definition find_r0 (input_guess : list R) (full_horizon : bool) : M unit :=
  (* Now find the horizon given the input guess *)
  (set_r0 [] ;;;
   me <- get_self ;;
   if full_horizon || negb (reflection_symmetric (ts_spacetime me))
   then
     record_call (CallRoot (shooting_function_full me) input_guess 1e-12) ;;;
     sol <- lift (root (shooting_function_full me) input_guess 1e-12) ;;
     set_r0 (opt_x sol)
   else
     lo <- lift (getitem input_guess 0) ;;
     hi <- lift (getitem input_guess 1) ;;
     record_call (CallBrentq (shooting_function me) lo hi) ;;;
     sol <- lift (brentq (shooting_function me) lo hi) ;;
     set_r0 [sol])%method.

(** The [while] loop of [solve_given_r0]:
    [while solver.successful() and <cond on solver.t>:
       solver.integrate(<next of solver.t>); H.append(solver.y);
       theta.append(solver.t)].
    [None] when [fuel] iterations did not end the loop. *)
Fixpoint sweep (fuel : nat) (cond : R -> bool) (next : R -> R)
  (solver : ode) (thetas : list R) (Hs : list SurfaceState)
  : option (result (ode * list R * list SurfaceState)) :=
  if successful solver && cond (ode_t solver) then
    match fuel with
    | O => None
    | S fuel' =>
        match integrate solver (next (ode_t solver)) with
        | Raise e => Some (Raise e)
        | Ok solver' =>
            sweep fuel' cond next solver'
              (thetas ++ [ode_t solver']) (Hs ++ [ode_y solver'])
        end
    end
  else Some (Ok (solver, thetas, Hs)).

(** The block that integrates from the axis at [t0] with radius [r0_k],
    keeping every sample. *)
Definition trajectory (fuel : nat) (me : trappedsurface) (r0_k : R) (t0 : R)
  (cond : R -> bool) (next : R -> R)
  : option (result (ode * list R * list SurfaceState)) :=
  let H0 := (r0_k, 0) in
  let solver := new_solver me H0 t0 in
  sweep fuel cond next solver [t0] [H0].

Definition dtheta : R := PI / 100.

Definition forward (fuel : nat) (me : trappedsurface) (r0_k : R) :=
  trajectory fuel me r0_k 0
    (fun t => Rltb t (PI / 2)) (fun t => t + dtheta).

Definition backward (fuel : nat) (me : trappedsurface) (r0_k : R) :=
  trajectory fuel me r0_k PI
    (fun t => Rgeb t (PI / 2 + 1e-12)) (fun t => t - dtheta).

(** The half turn [0 <= theta <= pi]: the samples [(H, theta)]. *)
Definition half_turn (fuel : nat) (full_horizon : bool) (me : trappedsurface)
  (radii : list R)
  : option (result (list SurfaceState * list R)) :=
  if full_horizon || negb (reflection_symmetric (ts_spacetime me)) then
    (* The solution needs computing for 0 <= theta <= pi *)
    match getitem radii 0 with
    | Raise e => Some (Raise e)
    | Ok r0_0 =>
        match forward fuel me r0_0 with
        | None => None
        | Some (Raise e) => Some (Raise e)
        | Some (Ok (_, theta1, H1)) =>
            match getitem radii 1 with
            | Raise e => Some (Raise e)
            | Ok r0_1 =>
                match backward fuel me r0_1 with
                | None => None
                | Some (Raise e) => Some (Raise e)
                | Some (Ok (_, theta2, H2)) =>
                    Some (Ok (H1 ++ rev H2, theta1 ++ rev theta2))
                end
            end
        end
    end
  else
    (* The solution needs computing for 0 <= theta <= pi / 2 *)
    match getitem radii 0 with
    | Raise e => Some (Raise e)
    | Ok r0_0 =>
        match forward fuel me r0_0 with
        | None => None
        | Some (Raise e) => Some (Raise e)
        | Some (Ok (_, theta1, H1)) =>
            Some (Ok (H1 ++ rev H1,
                      theta1 ++ rev (map (fun t => PI - t) theta1)))
        end
    end.

Definition solve_given_r0 (fuel : nat) (full_horizon : bool) (w : world)
  : option (result unit * world) :=
  match getattr r0 w with
  | (Raise e, w') => Some (Raise e, w')
  | (Ok radii, w') =>
      match half_turn fuel full_horizon (self w') radii with
      | None => None
      | Some (Raise e) => Some (Raise e, w')
      | Some (Ok (H, theta)) =>
          (* We now have the solution for 0 <= theta <= pi;
             fill the remaining angles *)
          Some (set_H_theta (H ++ rev H)
                  (theta ++ map (fun t => t + PI) theta) w')
      end
  end.

End Methods.

(* ================================================================== *)
(** * numpy helpers used by the remaining functions *)

Fixpoint mapM {A B} (f : A -> result B) (l : list A) : result (list B) :=
  match l with
  | [] => Ok []
  | a :: tl => b <- f a ;; bs <- mapM f tl ;; Ok (b :: bs)
  end.

(** [a * b] on one-dimensional arrays: shapes must agree unless one of them
    has a single entry. *)
Definition broadcast_mul (a b : list R) : result (list R) :=
  match a, b with
  | [u], _ => Ok (map (fun v => u * v) b)
  | _, [v] => Ok (map (fun u => u * v) a)
  | _, _ =>
      if (length a =? length b)%nat
      then Ok (map (fun uv => fst uv * snd uv) (combine a b))
      else Raise ValueError
  end.

(** [np.linspace(start, stop, num)]: [arange(num) * step + start] with the
    last entry set to [stop]. *)
Definition linspace (start stop : R) (num : nat) : list R :=
  let step := (stop - start) / INR (num - 1) in
  let y := map (fun i => INR i * step + start) (range num) in
  if (1 <? num)%nat then list_set y (num - 1) stop else y.

(** [np.argmin]: the first index that holds the least value. *)
Fixpoint argmin_from (l : list R) (i best_i : nat) (best : R) : nat :=
  match l with
  | [] => best_i
  | v :: tl =>
      if Rltb v best then argmin_from tl (S i) i v
      else argmin_from tl (S i) best_i best
  end.

Definition argmin (l : list R) : result nat :=
  match l with
  | [] => Raise ValueError
  | v :: tl => Ok (argmin_from tl 1 0 v)
  end.

(** [a[-1]]. *)
Definition getitem_last (a : list R) : result R :=
  match a with
  | [] => Raise IndexError
  | _ => Ok (last a 0)
  end.

(* ================================================================== *)
(** * [trappedsurface.convert_to_cartesian] *)

(** One row of the meshes [X], [Y], [Z]: the inner loop over [phi]. *)
Definition mesh_row (H : list SurfaceState) (theta phi : list R) (t : nat)
  : result (list R * list R * list R) :=
  Ht <- getitem H t ;;
  tht <- getitem theta t ;;
  Ok (map (fun ph => fst Ht * sin tht * cos ph) phi,
      map (fun ph => fst Ht * sin tht * sin ph) phi,
      map (fun ph => fst Ht * cos tht) phi).

(** The six attributes are assigned together here: an exception on the way
    leaves none of them (in Python [x] and [z] would already be set). *)
Definition convert_to_cartesian : M unit :=
  (H <- getattr ts_H ;;
   theta <- getattr ts_theta ;;
   me <- get_self ;;
   x <- lift (broadcast_mul (map fst H) (map sin theta)) ;;
   hz <- lift (broadcast_mul (map fst H) (map cos theta)) ;;
   let z := map (fun v => z_centre me + v) hz in
   let phi := linspace 0 (2 * PI) 20 in
   rows <- lift (mapM (mesh_row H theta phi) (range (length theta))) ;;
   let X := map (fun r => fst (fst r)) rows in
   let Y := map (fun r => snd (fst r)) rows in
   let Z := map (fun r => snd r) rows in
   let Rm := map (fun r =>
                map (fun xyz => sqrt (fst (fst xyz) ^ 2 + snd (fst xyz) ^ 2
                                      + snd xyz ^ 2))
                    (combine (combine (fst (fst r)) (snd (fst r))) (snd r)))
               rows in
   set_cartesian {| ct_x := x; ct_z := z;
                    ct_X := X; ct_Y := Y; ct_Z := Z; ct_R := Rm |})%method.

(* ================================================================== *)
(** * [FindHorizonBinarySymmetric] *)

Section Helper.
Context {num : Numerics}.

(** An empirical formula for the required initial guess. *)
Definition r0_empirical (z mass : R) : R :=
  mass * (1 - 0.0383 * z + 0.945 * z ^ 2 - 0.522 * z ^ 3).

(** The candidate radii of the [except] branch. *)
Definition candidates (r0e : R) : list R :=
  linspace (0.95 * r0e) (1.05 * r0e) 50.

(** [phi[i] = ts.shooting_function(r0[i])] for every candidate. *)
Definition scan (me : trappedsurface) (cand : list R) : result (list R) :=
  for_range (range (length cand))
    (fun i phi =>
       ri <- getitem cand i ;;
       v <- shooting_function me ri ;;
       setitem phi i v)
    (zeros_like cand).

(** The [except ValueError] branch. *)
Definition scan_and_retry (r0e : R) : M unit :=
  (me <- get_self ;;
   let cand := candidates r0e in
   phi <- lift (scan me cand) ;;
   k <- lift (argmin phi) ;;
   c <- lift (getitem cand k) ;;
   far <- lift (getitem_last cand) ;;
   find_r0 [c; far] false)%method.

(** The [try] statement. *)
Definition find_with_retry (r0e : R) : M unit :=
  let initial_guess := [0.99 * r0e; 1.01 * r0e] in
  try_except_ValueError (find_r0 initial_guess false) (scan_and_retry r0e).

(** [z] defaults to [0.5] and [mass] to [1.0]. *)
Definition FindHorizonBinarySymmetric (fuel : nat) (z mass : R)
  : option (result trappedsurface * world) :=
  let st := spacetime_init [- z; z] [mass; mass] true in
  let ts := trappedsurface_init st 0 in
  match find_with_retry (r0_empirical z mass) {| self := ts; calls := [] |} with
  | (Raise e, w) => Some (Raise e, w)
  | (Ok _, w) =>
      match solve_given_r0 fuel false w with
      | None => None
      | Some (Raise e, w') => Some (Raise e, w')
      | Some (Ok _, w') =>
          match convert_to_cartesian w' with
          | (Raise e, w'') => (Some (Raise e, w''))
          | (Ok _, w'') => Some (Ok (self w''), w'')
          end
      end
  end.

End Helper.

(* ================================================================== *)
(** * Concrete routines and spacetimes *)

(** A single explicit Euler step from [t] to [t1]: a crude integrator that
    always reports success at the requested angle. *)
Definition euler_step (f : rhs) (atol rtol : R) (y : SurfaceState) (t t1 : R)
  : result (SurfaceState * R * bool) :=
  dy <- f t y ;;
  Ok ((fst y + (t1 - t) * fst dy, snd y + (t1 - t) * snd dy), t1, true).

(** A bracketing solver that checks the signs at the ends of the bracket
    and answers with its midpoint. *)
Definition midpoint_brentq (f : R -> result R) (a b : R) : result R :=
  fa <- f a ;;
  fb <- f b ;;
  if Rltb 0 (fa * fb) then Raise ValueError else Ok ((a + b) / 2).

(** A multidimensional solver whose iteration budget is spent at once: it
    evaluates the residual at the guess and reports no convergence. *)
Definition stalled_root (f : list R -> result (list R)) (x0 : list R)
  (tol : R) : result OptimizeResult :=
  fx <- f x0 ;;
  Ok {| opt_x := x0; opt_success := false; opt_fun := fx |}.

Definition crude_numerics : Numerics :=
  {| dopri5 := euler_step; brentq := midpoint_brentq; root := stalled_root |}.

(** The surface [FindHorizonBinarySymmetric] builds: two singularities of
    mass [mass] at [-z] and [z], centre [0.0]. *)
Definition two_body (z mass : R) : trappedsurface :=
  trappedsurface_init (spacetime_init [- z; z] [mass; mass] true) 0.

(** An integrator that gives up at once: it reports failure and leaves the
    state and the angle where they were. *)
Definition failing_step (f : rhs) (atol rtol : R) (y : SurfaceState)
  (t t1 : R) : result (SurfaceState * R * bool) :=
  Ok (y, t, false).

Definition stuck_numerics : Numerics :=
  {| dopri5 := failing_step; brentq := midpoint_brentq; root := stalled_root |}.

(** [spacetime([0.0], [1.0], True)]. *)
Definition schwarzschild : spacetime := spacetime_init [0] [1] true.

(** [spacetime([-0.5, 0.5], [1.0, 1.0])], the spacetime of [__main__]. *)
Definition binary : spacetime := spacetime_init [-0.5; 0.5] [1; 1] false.

(* ================================================================== *)
(** * The sampled angles in exact arithmetic *)

(** [n] angles from [a] upwards in steps of [dtheta]. *)
Definition ramp (a : R) (n : nat) : list R :=
  map (fun k => a + INR k * dtheta) (seq 0 n).

(** Four ramps of 51 angles: [0..pi/2], [pi/2..pi], [pi..3pi/2],
    [3pi/2..2pi], every end point included. *)
Definition full_angles : list R :=
  ramp 0 51 ++ ramp (PI / 2) 51 ++ ramp PI 51 ++ ramp (3 * PI / 2) 51.

(** A solver set up as [new_solver] does, whatever its state. *)
Definition tuned (me : trappedsurface) (s : ode) : Prop :=
  ode_f s = expansion me /\ ode_atol s = 1e-8 /\ ode_rtol s = 1e-6.

(* ================================================================== *)
(** * The cartesian data in closed form *)

(** What [convert_to_cartesian] stores for the samples [(Hs, thetas)] about
    the centre [zc], sample by sample. *)
Definition cartesian_of (zc : R) (Hs : list SurfaceState) (thetas : list R)
  : cartesian :=
  let pts := combine Hs thetas in
  let phi := linspace 0 (2 * PI) 20 in
  {| ct_x := map (fun p => fst (fst p) * sin (snd p)) pts;
     ct_z := map (fun p => zc + fst (fst p) * cos (snd p)) pts;
     ct_X := map (fun p =>
               map (fun ph => fst (fst p) * sin (snd p) * cos ph) phi) pts;
     ct_Y := map (fun p =>
               map (fun ph => fst (fst p) * sin (snd p) * sin ph) phi) pts;
     ct_Z := map (fun p => map (fun ph => fst (fst p) * cos (snd p)) phi) pts;
     ct_R := map (fun p =>
               map (fun ph =>
                      sqrt ((fst (fst p) * sin (snd p) * cos ph) ^ 2
                            + (fst (fst p) * sin (snd p) * sin ph) ^ 2
                            + (fst (fst p) * cos (snd p)) ^ 2)) phi) pts |}.

(* ================================================================== *)
(** * Properties of the runtime helpers *)

Lemma rbind_Ok {A B} (a : A) (k : A -> result B) : rbind (Ok a) k = k a.
Proof. reflexivity. Qed.

Lemma getitem_Some {A} (a : list A) i v :
  nth_error a i = Some v -> getitem a i = Ok v.
Proof. unfold getitem. now intros ->. Qed.

Lemma getitem_app_here {A} (pre post : list A) v :
  getitem (pre ++ v :: post) (length pre) = Ok v.
Proof.
  apply getitem_Some. rewrite nth_error_app2 by lia.
  now rewrite Nat.sub_diag.
Qed.

Lemma list_set_app_here {A} (pre post : list A) u v :
  list_set (pre ++ u :: post) (length pre) v = pre ++ v :: post.
Proof. induction pre as [|p pre IH]; simpl; [reflexivity | now rewrite IH]. Qed.

Lemma setitem_app_here {A} (pre post : list A) u v :
  setitem (pre ++ u :: post) (length pre) v = Ok (pre ++ v :: post).
Proof.
  unfold setitem.
  replace (length pre <? length (pre ++ u :: post))%nat with true.
  - now rewrite list_set_app_here.
  - symmetry. apply Nat.ltb_lt. rewrite length_app. simpl. lia.
Qed.

(** A loop over [range(len(l))] whose body only reads entry [i] of [l] is a
    left fold over [l]. *)
Lemma for_range_reads {S A} (body : nat -> S -> result S) (step : S -> A -> S)
  (post pre : list A) :
  (forall i a s, nth_error (pre ++ post) i = Some a ->
                 body i s = Ok (step s a)) ->
  forall s, for_range (seq (length pre) (length post)) body s
            = Ok (fold_left step post s).
Proof.
  revert pre. induction post as [|a post IH]; intros pre Hbody s.
  - reflexivity.
  - simpl. rewrite (Hbody (length pre) a s).
    + specialize (IH (pre ++ [a])). rewrite length_app in IH. simpl in IH.
      rewrite Nat.add_1_r in IH. apply IH.
      intros i b s' Hi. apply Hbody. now rewrite <- app_assoc in Hi.
    + rewrite nth_error_app2 by lia. now rewrite Nat.sub_diag.
Qed.

Lemma for_range_fold {S A} (body : nat -> S -> result S) (step : S -> A -> S)
  (l : list A) :
  (forall i a s, nth_error l i = Some a -> body i s = Ok (step s a)) ->
  forall s, for_range (range (length l)) body s = Ok (fold_left step l s).
Proof. intros Hbody s. exact (for_range_reads body step l [] Hbody s). Qed.

(* ================================================================== *)
(** * The right-hand side *)

(** The first loop stores the distance to every singularity. *)
Lemma distance_loop (h theta : R) (todo done : list R) :
  for_range (seq (length done) (length todo))
    (distance_body h theta (done ++ todo))
    (map (spec_dist h theta) done ++ repeat 0 (length todo))
  = Ok (map (spec_dist h theta) (done ++ todo)).
Proof.
  revert done. induction todo as [|z todo IH]; intros done.
  - simpl. now rewrite !app_nil_r.
  - simpl. unfold distance_body at 1.
    rewrite getitem_app_here, rbind_Ok.
    rewrite <- (length_map (spec_dist h theta) done).
    rewrite setitem_app_here. rewrite length_map.
    specialize (IH (done ++ [z])).
    rewrite length_app, Nat.add_1_r, <- app_assoc in IH. simpl in IH.
    rewrite map_app in IH. simpl in IH. rewrite <- app_assoc in IH.
    exact IH.
Qed.

Lemma distance_array (h theta : R) (z_i : list R) :
  for_range (range (length z_i)) (distance_body h theta z_i) (zeros_like z_i)
  = Ok (map (spec_dist h theta) z_i).
Proof. exact (distance_loop h theta z_i []). Qed.

Lemma nth_error_combine {A B} (a : list A) (b : list B) i p :
  nth_error (combine a b) i = Some p ->
  nth_error a i = Some (fst p) /\ nth_error b i = Some (snd p).
Proof.
  revert b i. induction a as [|x a IH]; intros [|y b] [|i]; simpl; try discriminate.
  - intros [= <-]. now split.
  - apply IH.
Qed.

Lemma psi_body_step (h theta : R) (z_i m_i : list R) i mz acc :
  nth_error (combine m_i z_i) i = Some mz ->
  psi_body h theta z_i m_i (map (spec_dist h theta) z_i) i acc
  = Ok (psi_step h theta acc mz).
Proof.
  intros Hi. apply nth_error_combine in Hi. destruct Hi as [Hm Hz].
  destruct acc as [[psi dr] dth]. unfold psi_body, psi_step.
  rewrite (getitem_Some _ _ _ Hm), (getitem_Some _ _ _ Hz).
  rewrite (getitem_Some (map (spec_dist h theta) z_i) i
             (spec_dist h theta (snd mz)))
    by (now rewrite nth_error_map, Hz).
  reflexivity.
Qed.

Lemma psi_fold (h theta : R) (sing : list (R * R)) (p a b : R) :
  fold_left (psi_step h theta) sing (p, a, b)
  = (p + (spec_psi h theta sing - 1),
     a + spec_dpsi_dr h theta sing,
     b + spec_dpsi_dtheta h theta sing).
Proof.
  revert p a b. induction sing as [|mz sing IH]; intros p a b.
  - unfold spec_psi, spec_dpsi_dr, spec_dpsi_dtheta. simpl.
    f_equal; [f_equal|]; lra.
  - simpl. rewrite IH.
    unfold spec_psi, spec_dpsi_dr, spec_dpsi_dtheta. simpl.
    f_equal; [f_equal|]; lra.
Qed.

(** What [expansion] returns when every mass has a position. *)
Lemma expansion_value (me : trappedsurface) (theta h dh : R) :
  length (masses (ts_spacetime me)) = length (z_positions (ts_spacetime me)) ->
  expansion me theta (h, dh)
  = Ok (dh,
        spec_d2h h dh theta
          (if Rltb (Rabs theta) 1e-16 || Rltb (Rabs (theta - PI)) 1e-16
           then 0 else dh / (tan theta * spec_C h dh ^ 2))
          (singularities me)).
Proof.
  intros Hlen. unfold expansion. cbv zeta. simpl fst. simpl snd.
  rewrite distance_array, rbind_Ok.
  set (z_i := map (fun z => z - z_centre me) (z_positions (ts_spacetime me))).
  assert (Hl : length (masses (ts_spacetime me))
               = length (combine (masses (ts_spacetime me)) z_i)).
  { rewrite length_combine. unfold z_i. rewrite length_map. lia. }
  rewrite Hl.
  rewrite (for_range_fold _ (psi_step h theta) _
             (fun i a s => psi_body_step h theta z_i _ i a s)).
  rewrite psi_fold, rbind_Ok.
  unfold spec_d2h, spec_C, singularities. fold z_i.
  do 2 f_equal.
  replace (1 + (spec_psi h theta (combine (masses (ts_spacetime me)) z_i) - 1))
    with (spec_psi h theta (combine (masses (ts_spacetime me)) z_i)) by lra.
  rewrite !Rplus_0_l. reflexivity.
Qed.

Lemma cot_term_cases (theta dh C : R) :
  let cot := if Rltb (Rabs theta) 1e-16 || Rltb (Rabs (theta - PI)) 1e-16
             then 0 else dh / (tan theta * C ^ 2) in
  (on_axis theta -> cot = 0) /\
  (~ on_axis theta -> cot = dh / (tan theta * C ^ 2)).
Proof.
  unfold on_axis, Rltb. cbv zeta.
  destruct (Rlt_dec (Rabs theta) 1e-16) as [H0|H0];
    destruct (Rlt_dec (Rabs (theta - PI)) 1e-16) as [Hpi|Hpi]; simpl;
    split; intros H; try reflexivity; try tauto.
Qed.

(** C1: with every mass paired with a position, at [h > 0] and every
    [dist_i > 0], [expansion] returns [(h', d2h)] where
    [d2h = 2h - cot + 4h^2/(psi C^2) (dpsi/dr - dpsi/dtheta h'/h^2) + 3h'^2/h],
    [psi = 1 + sum 0.5 m_i/dist_i], [C = 1/sqrt(1+(h'/h)^2)], and the
    cot-term is [0] within [1e-16] of [0] or [pi] and [h'/(tan(theta) C^2)]
    elsewhere. *)
Theorem expansion_rhs (me : trappedsurface) (theta h dh : R) :
  length (masses (ts_spacetime me)) = length (z_positions (ts_spacetime me)) ->
  0 < h ->
  Forall (fun mz => 0 < spec_dist h theta (snd mz)) (singularities me) ->
  exists cot,
    expansion me theta (h, dh)
    = Ok (dh, spec_d2h h dh theta cot (singularities me)) /\
    (on_axis theta -> cot = 0) /\
    (~ on_axis theta -> cot = dh / (tan theta * spec_C h dh ^ 2)).
Proof.
  intros Hlen _ _. eexists. split.
  - apply expansion_value, Hlen.
  - apply cot_term_cases.
Qed.

Lemma spec_dist_axis (h zi : R) : spec_dist h 0 zi = Rabs (h - zi).
Proof.
  unfold spec_dist. rewrite sin_0, cos_0.
  replace ((h * 0) ^ 2 + (h * 1 - zi) ^ 2) with (Rsqr (h - zi))
    by (unfold Rsqr; ring).
  apply sqrt_Rsqr_abs.
Qed.

Lemma expansion_rhs_witness :
  exists cot,
    expansion (trappedsurface_init schwarzschild 0) 0 (1 / 2, 0)
    = Ok (0, spec_d2h (1 / 2) 0 0 cot
               (singularities (trappedsurface_init schwarzschild 0))) /\
    (on_axis 0 -> cot = 0) /\
    (~ on_axis 0 -> cot = 0 / (tan 0 * spec_C (1 / 2) 0 ^ 2)).
Proof.
  apply (expansion_rhs (trappedsurface_init schwarzschild 0) 0 (1 / 2) 0).
  - reflexivity.
  - lra.
  - repeat constructor. simpl. rewrite spec_dist_axis.
    rewrite Rabs_pos_eq; lra.
Defined.

(** C6 as stated fails: at the non-positive radius [h = -1] on the axis of
    Schwarzschild the evaluation returns the pair [(0, -2/3)]. *)
Lemma expansion_nonpositive_radius_returns :
  -1 <= 0 /\
  expansion (trappedsurface_init schwarzschild 0) 0 (-1, 0) = Ok (0, - 2 / 3).
Proof.
  split; [lra|].
  rewrite expansion_value by reflexivity.
  do 2 f_equal.
  replace (Rltb (Rabs 0) 1e-16) with true
    by (unfold Rltb; destruct (Rlt_dec (Rabs 0) 1e-16) as [|n];
        [reflexivity | exfalso; apply n; rewrite Rabs_R0; lra]).
  simpl orb. cbv iota.
  unfold spec_d2h, spec_psi, spec_dpsi_dr, spec_dpsi_dtheta, spec_C,
    singularities. simpl.
  rewrite spec_dist_axis, sin_0, cos_0.
  replace (-1 - (0 - 0)) with (-1) by lra.
  rewrite Rabs_left by lra.
  replace (1 + 0 / -1 * (0 / -1 * 1)) with 1 by (field; lra).
  rewrite sqrt_1.
  replace (- (-1)) with 1 by lra.
  rewrite !Rmult_1_r, !Rdiv_1_r, !Rmult_1_l. lra.
Qed.

(** C6, amended: at a negative radius with every mass paired with a
    position and every [dist_i > 0], [expansion] raises nothing and returns
    the pair given by the same formulas as at [h > 0]. *)
Theorem expansion_negative_radius (me : trappedsurface) (theta h dh : R) :
  length (masses (ts_spacetime me)) = length (z_positions (ts_spacetime me)) ->
  h < 0 ->
  Forall (fun mz => 0 < spec_dist h theta (snd mz)) (singularities me) ->
  exists cot,
    expansion me theta (h, dh)
    = Ok (dh, spec_d2h h dh theta cot (singularities me)) /\
    (on_axis theta -> cot = 0) /\
    (~ on_axis theta -> cot = dh / (tan theta * spec_C h dh ^ 2)).
Proof.
  intros Hlen _ _. eexists. split.
  - apply expansion_value, Hlen.
  - apply cot_term_cases.
Qed.

Lemma expansion_negative_radius_witness :
  exists cot,
    expansion (trappedsurface_init schwarzschild 0) 0 (-1, 0)
    = Ok (0, spec_d2h (-1) 0 0 cot
               (singularities (trappedsurface_init schwarzschild 0))) /\
    (on_axis 0 -> cot = 0) /\
    (~ on_axis 0 -> cot = 0 / (tan 0 * spec_C (-1) 0 ^ 2)).
Proof.
  apply (expansion_negative_radius (trappedsurface_init schwarzschild 0) 0 (-1) 0).
  - reflexivity.
  - lra.
  - repeat constructor. simpl. rewrite spec_dist_axis.
    rewrite Rabs_left; lra.
Defined.

(* ================================================================== *)
(** * The shooting objectives *)

Section ShootingProperties.
Context {num : Numerics}.

Lemma integrate_new_solver (me : trappedsurface) (H0 : SurfaceState) (t0 t1 : R) :
  integrate (new_solver me H0 t0) t1
  = ('(y, t, ok) <- dopri5 (expansion me) 1e-8 1e-6 H0 t0 t1 ;;
     Ok {| ode_f := expansion me; ode_atol := 1e-8; ode_rtol := 1e-6;
           ode_y := y; ode_t := t; ode_success := ok |}).
Proof. reflexivity. Qed.

(** C2: the symmetric objective at [r0] is the [h'] component of the state
    in which the integrator, run on [expansion] with [atol = 1e-8] and
    [rtol = 1e-6] from [(theta, h, h') = (0, r0, 0)] towards [pi/2],
    stops. *)
Theorem shooting_function_spec (me : trappedsurface) (r0_ : R) :
  shooting_function me r0_
  = ('(y, _, _) <- dopri5 (expansion me) 1e-8 1e-6 (r0_, 0) 0 (PI / 2) ;;
     Ok (snd y)).
Proof.
  unfold shooting_function. rewrite integrate_new_solver.
  destruct (dopri5 (expansion me) 1e-8 1e-6 (r0_, 0) 0 (PI / 2))
    as [[[y t] ok]|e]; reflexivity.
Qed.

(** C3: the general objective at [[r0_a, r0_b]] integrates [expansion] from
    [(0, r0_a, 0)] up to [pi/2] and, on its own, from [(pi, r0_b, 0)] down
    to [pi/2], and returns the difference of the two terminal states,
    first minus second, component by component. *)
Theorem shooting_function_full_spec (me : trappedsurface) (r0_a r0_b : R) :
  shooting_function_full me [r0_a; r0_b]
  = ('(y1, _, _) <- dopri5 (expansion me) 1e-8 1e-6 (r0_a, 0) 0 (PI / 2) ;;
     '(y2, _, _) <- dopri5 (expansion me) 1e-8 1e-6 (r0_b, 0) PI (PI / 2) ;;
     Ok [fst y1 - fst y2; snd y1 - snd y2])
  /\ 0 < PI / 2 < PI.
Proof.
  split; [|pose proof PI_RGT_0; lra].
  unfold shooting_function_full.
  change (getitem [r0_a; r0_b] 0) with (Ok r0_a).
  change (getitem [r0_a; r0_b] 1) with (Ok r0_b).
  rewrite rbind_Ok, !integrate_new_solver.
  destruct (dopri5 (expansion me) 1e-8 1e-6 (r0_a, 0) 0 (PI / 2))
    as [[[y1 t1] ok1]|e1]; [|reflexivity].
  rewrite !rbind_Ok. cbv beta iota. rewrite integrate_new_solver.
  destruct (dopri5 (expansion me) 1e-8 1e-6 (r0_b, 0) PI (PI / 2))
    as [[[y2 t2] ok2]|e2]; reflexivity.
Qed.

End ShootingProperties.

(* ================================================================== *)
(** * [find_r0] *)

Section FindR0.
Context {num : Numerics}.

(** The objectives read the spacetime and the centre only. *)
Lemma shooting_function_with_r0 (me : trappedsurface) (v : list R) :
  shooting_function (with_r0 me v) = shooting_function me.
Proof. reflexivity. Qed.

Lemma shooting_function_full_with_r0 (me : trappedsurface) (v : list R) :
  shooting_function_full (with_r0 me v) = shooting_function_full me.
Proof. reflexivity. Qed.

(** The general branch, step by step. *)
Lemma find_r0_general (w : world) (guess : list R) (full_horizon : bool) :
  full_horizon || negb (reflection_symmetric (ts_spacetime (self w))) = true ->
  find_r0 guess full_horizon w
  = let log := calls w ++ [CallRoot (shooting_function_full (self w)) guess 1e-12] in
    match root (shooting_function_full (self w)) guess 1e-12 with
    | Ok sol => (Ok tt, {| self := with_r0 (self w) (opt_x sol); calls := log |})
    | Raise e => (Raise e, {| self := with_r0 (self w) []; calls := log |})
    end.
Proof.
  intros Hmode. unfold find_r0, mbind, set_r0, get_self, record_call, lift.
  cbn [self calls with_r0 ts_spacetime].
  rewrite Hmode. cbn [self calls].
  change (shooting_function_full (with_r0 (self w) []))
    with (shooting_function_full (self w)).
  destruct (root (shooting_function_full (self w)) guess 1e-12); reflexivity.
Qed.

(** The symmetric branch, step by step. *)
Lemma find_r0_symmetric (w : world) (lo hi : R) (full_horizon : bool) :
  full_horizon || negb (reflection_symmetric (ts_spacetime (self w))) = false ->
  find_r0 [lo; hi] full_horizon w
  = let log := calls w ++ [CallBrentq (shooting_function (self w)) lo hi] in
    match brentq (shooting_function (self w)) lo hi with
    | Ok sol => (Ok tt, {| self := with_r0 (self w) [sol]; calls := log |})
    | Raise e => (Raise e, {| self := with_r0 (self w) []; calls := log |})
    end.
Proof.
  intros Hmode. unfold find_r0, mbind, set_r0, get_self, record_call, lift.
  cbn [self calls with_r0 ts_spacetime].
  rewrite Hmode. cbn [self calls getitem nth_error].
  change (shooting_function (with_r0 (self w) []))
    with (shooting_function (self w)).
  destruct (brentq (shooting_function (self w)) lo hi); reflexivity.
Qed.



(** C7: in symmetric mode, when the objective has the same strict sign at
    both ends of the bracket, [find_r0] raises the [ValueError] of [brentq]
    (the error the specification names NoSignChangeInBracket) and [r0] is
    left as the empty list. *)
Theorem find_r0_no_sign_change (Hsign : brentq_requires_sign_change num)
  (w : world) (lo hi flo fhi : R) :
  reflection_symmetric (ts_spacetime (self w)) = true ->
  shooting_function (self w) lo = Ok flo ->
  shooting_function (self w) hi = Ok fhi ->
  0 < flo * fhi ->
  find_r0 [lo; hi] false w
  = (Raise ValueError,
     {| self := with_r0 (self w) [];
        calls := calls w ++ [CallBrentq (shooting_function (self w)) lo hi] |}).
Proof.
  intros Hsym Hlo Hhi Hprod.
  rewrite find_r0_symmetric by (now rewrite Hsym).
  cbv zeta. now rewrite (Hsign _ lo hi flo fhi Hlo Hhi Hprod).
Qed.

(** C8, amended: in general mode [find_r0] never looks at the convergence
    flag: whatever [root] returns, converged or not, its last iterate is
    stored as [r0] and [find_r0] returns normally; only an exception of
    [root] itself reaches the caller, and then [r0] is the empty list. *)
Theorem find_r0_general_stores_last_iterate
  (w : world) (guess : list R) (full_horizon : bool) :
  full_horizon || negb (reflection_symmetric (ts_spacetime (self w))) = true ->
  let f := shooting_function_full (self w) in
  let log := calls w ++ [CallRoot f guess 1e-12] in
  (forall sol, root f guess 1e-12 = Ok sol ->
     find_r0 guess full_horizon w
     = (Ok tt, {| self := with_r0 (self w) (opt_x sol); calls := log |})) /\
  (forall e, root f guess 1e-12 = Raise e ->
     find_r0 guess full_horizon w
     = (Raise e, {| self := with_r0 (self w) []; calls := log |})).
Proof.
  intros Hmode f log. rewrite (find_r0_general w guess full_horizon Hmode).
  cbv zeta. fold f. split; intros x ->; reflexivity.
Qed.

End FindR0.

(* ================================================================== *)
(** * The crude routines satisfy the contracts *)

Lemma crude_root_keeps_shape : root_keeps_shape crude_numerics.
Proof.
  intros f x0 tol sol. simpl. unfold stalled_root.
  destruct (f x0); simpl; [|discriminate].
  now intros [= <-].
Qed.

Lemma Rltb_true (x y : R) : x < y -> Rltb x y = true.
Proof. intros H. unfold Rltb. now destruct (Rlt_dec x y). Qed.

Lemma Rltb_false (x y : R) : ~ x < y -> Rltb x y = false.
Proof. intros H. unfold Rltb. now destruct (Rlt_dec x y). Qed.

Lemma crude_brentq_requires_sign_change :
  brentq_requires_sign_change crude_numerics.
Proof.
  intros f a b fa fb Ha Hb Hprod. simpl. unfold midpoint_brentq.
  rewrite Ha, Hb. simpl. now rewrite Rltb_true.
Qed.

Lemma expansion_on_axis (me : trappedsurface) (h dh : R) :
  length (masses (ts_spacetime me)) = length (z_positions (ts_spacetime me)) ->
  expansion me 0 (h, dh) = Ok (dh, spec_d2h h dh 0 0 (singularities me)).
Proof.
  intros Hlen. rewrite expansion_value by exact Hlen.
  rewrite (Rltb_true (Rabs 0)) by (rewrite Rabs_R0; lra).
  reflexivity.
Qed.

Lemma expansion_on_far_axis (me : trappedsurface) (h dh : R) :
  length (masses (ts_spacetime me)) = length (z_positions (ts_spacetime me)) ->
  expansion me PI (h, dh) = Ok (dh, spec_d2h h dh PI 0 (singularities me)).
Proof.
  intros Hlen. rewrite expansion_value by exact Hlen.
  rewrite (Rltb_true (Rabs (PI - PI)))
    by (rewrite Rminus_diag, Rabs_R0; lra).
  now rewrite orb_true_r.
Qed.

(** The symmetric objective under a single Euler step. *)
Lemma euler_shooting_function (me : trappedsurface) (r : R) :
  length (masses (ts_spacetime me)) = length (z_positions (ts_spacetime me)) ->
  @shooting_function crude_numerics me r
  = Ok (0 + (PI / 2 - 0) * spec_d2h r 0 0 0 (singularities me)).
Proof.
  intros Hlen. unfold shooting_function. rewrite integrate_new_solver.
  simpl dopri5. unfold euler_step.
  now rewrite (expansion_on_axis me r 0 Hlen).
Qed.

Lemma euler_shooting_function_full (me : trappedsurface) (a b : R) :
  length (masses (ts_spacetime me)) = length (z_positions (ts_spacetime me)) ->
  exists fx, @shooting_function_full crude_numerics me [a; b] = Ok fx.
Proof.
  intros Hlen. unfold shooting_function_full.
  change (getitem [a; b] 0) with (Ok a).
  change (getitem [a; b] 1) with (Ok b).
  rewrite rbind_Ok, integrate_new_solver.
  simpl dopri5. unfold euler_step.
  rewrite (expansion_on_axis me a 0 Hlen). rewrite !rbind_Ok. cbv beta iota.
  rewrite integrate_new_solver. simpl dopri5. unfold euler_step.
  rewrite (expansion_on_far_axis me b 0 Hlen).
  simpl. eexists. reflexivity.
Qed.

(** On the axis of Schwarzschild, at rest, [d2h = 2 r (r - 1/2) / (r + 1/2)]:
    it vanishes at the horizon radius [1/2]. *)
Lemma schwarzschild_d2h_axis (r : R) :
  0 < r ->
  spec_d2h r 0 0 0 (singularities (trappedsurface_init schwarzschild 0))
  = 2 * r * (r - 1 / 2) / (r + 1 / 2).
Proof.
  intros Hr.
  unfold spec_d2h, spec_psi, spec_dpsi_dr, spec_dpsi_dtheta, spec_C,
    singularities. simpl.
  rewrite spec_dist_axis, sin_0, cos_0.
  replace (r - (0 - 0)) with r by lra.
  rewrite Rabs_pos_eq by lra.
  replace (1 + 0 / r * (0 / r * 1)) with 1 by (field; lra).
  rewrite sqrt_1. replace 0.5 with (1 / 2) by lra. field. lra.
Qed.

Lemma schwarzschild_objective_negative (r : R) :
  0 < r < 1 / 2 ->
  0 + (PI / 2 - 0)
      * spec_d2h r 0 0 0 (singularities (trappedsurface_init schwarzschild 0))
  < 0.
Proof.
  intros [Hr Hhalf]. rewrite schwarzschild_d2h_axis by exact Hr.
  assert (Hq : 2 * r * (r - 1 / 2) / (r + 1 / 2) < 0).
  { assert (Hinv : 0 < / (r + 1 / 2)) by (apply Rinv_0_lt_compat; lra).
    assert (Hnum : 2 * r * (r - 1 / 2) < 0) by nra.
    unfold Rdiv at 1. nra. }
  pose proof PI_RGT_0. nra.
Qed.

(* ================================================================== *)
(** * [find_r0] on concrete inputs *)


(** The failure scenario of the specification, with the crude routines:
    Schwarzschild and the bracket [[0.01, 0.02]] below the radius [0.5]. *)
Lemma find_r0_no_sign_change_witness :
  let w := {| self := trappedsurface_init schwarzschild 0; calls := [] |} in
  @find_r0 crude_numerics [0.01; 0.02] false w
  = (Raise ValueError,
     {| self := with_r0 (self w) [];
        calls := calls w ++ [CallBrentq
                               (@shooting_function crude_numerics (self w))
                               0.01 0.02] |}).
Proof.
  intros w.
  apply (@find_r0_no_sign_change crude_numerics
           crude_brentq_requires_sign_change w 0.01 0.02
           (0 + (PI / 2 - 0)
                * spec_d2h 0.01 0 0 0
                    (singularities (trappedsurface_init schwarzschild 0)))
           (0 + (PI / 2 - 0)
                * spec_d2h 0.02 0 0 0
                    (singularities (trappedsurface_init schwarzschild 0)))).
  - reflexivity.
  - apply euler_shooting_function. reflexivity.
  - apply euler_shooting_function. reflexivity.
  - pose proof (schwarzschild_objective_negative 0.01 ltac:(lra)).
    pose proof (schwarzschild_objective_negative 0.02 ltac:(lra)).
    nra.
Defined.

(** C8 as stated fails: with a solver that reports no convergence, the
    general-mode call on the spacetime of [__main__] with the guess
    [[1, 1]] returns normally and stores the unconverged iterate. *)
Lemma find_r0_stores_unconverged_iterate :
  let w := {| self := trappedsurface_init binary 0; calls := [] |} in
  exists sol w',
    @root crude_numerics (@shooting_function_full crude_numerics (self w))
      [1; 1] 1e-12 = Ok sol /\
    opt_success sol = false /\
    @find_r0 crude_numerics [1; 1] false w = (Ok tt, w') /\
    r0 (self w') = Some [1; 1].
Proof.
  intros w.
  destruct (euler_shooting_function_full (self w) 1 1 eq_refl) as [fx Hfx].
  exists {| opt_x := [1; 1]; opt_success := false; opt_fun := fx |}.
  assert (Hroot :
    @root crude_numerics (@shooting_function_full crude_numerics (self w))
      [1; 1] 1e-12
    = Ok {| opt_x := [1; 1]; opt_success := false; opt_fun := fx |}).
  { change (stalled_root (@shooting_function_full crude_numerics (self w))
              [1; 1] 1e-12
            = Ok {| opt_x := [1; 1]; opt_success := false; opt_fun := fx |}).
    unfold stalled_root. now rewrite Hfx. }
  eexists. split; [exact Hroot|]. split; [reflexivity|].
  rewrite (@find_r0_general crude_numerics w [1; 1] false eq_refl).
  cbv zeta. rewrite Hroot. split; reflexivity.
Qed.

Lemma find_r0_general_stores_last_iterate_witness :
  let w := {| self := trappedsurface_init binary 0; calls := [] |} in
  let f := @shooting_function_full crude_numerics (self w) in
  let log := calls w ++ [CallRoot f [1; 1] 1e-12] in
  (forall sol, @root crude_numerics f [1; 1] 1e-12 = Ok sol ->
     @find_r0 crude_numerics [1; 1] false w
     = (Ok tt, {| self := with_r0 (self w) (opt_x sol); calls := log |})) /\
  (forall e, @root crude_numerics f [1; 1] 1e-12 = Raise e ->
     @find_r0 crude_numerics [1; 1] false w
     = (Raise e, {| self := with_r0 (self w) []; calls := log |})).
Proof.
  intros w.
  apply (@find_r0_general_stores_last_iterate crude_numerics w [1; 1] false).
  reflexivity.
Defined.

(* ================================================================== *)
(** * The sampling loop *)

Section Sweep.
Context {num : Numerics}.

(** Both lists grow together. *)
Lemma sweep_lengths (fuel : nat) (cond : R -> bool) (next : R -> R) :
  forall (s s' : ode) (th th' : list R) (Hs Hs' : list SurfaceState),
    sweep fuel cond next s th Hs = Some (Ok (s', th', Hs')) ->
    length th = length Hs -> length th' = length Hs'.
Proof.
  induction fuel as [|fuel IH]; intros s s' th th' Hs Hs' Hrun Hlen; simpl in Hrun.
  - destruct (successful s && cond (ode_t s)); [discriminate|].
    injection Hrun as _ <- <-. exact Hlen.
  - destruct (successful s && cond (ode_t s)).
    + destruct (integrate s (next (ode_t s))) as [s1|e]; [|discriminate].
      apply IH in Hrun; [exact Hrun|].
      rewrite !length_app. simpl. lia.
    + injection Hrun as _ <- <-. exact Hlen.
Qed.

Lemma trajectory_lengths (fuel : nat) (me : trappedsurface) (r t0 : R)
  (cond : R -> bool) (next : R -> R) s th Hs :
  trajectory fuel me r t0 cond next = Some (Ok (s, th, Hs)) ->
  length th = length Hs.
Proof.
  unfold trajectory. intros Hrun.
  eapply sweep_lengths; [exact Hrun | reflexivity].
Qed.

Variable me : trappedsurface.
Hypothesis Hreach : dopri5_reaches num (expansion me) 1e-8 1e-6.

Lemma integrate_reaches (s : ode) (t1 : R) :
  tuned me s ->
  exists s', integrate s t1 = Ok s' /\ tuned me s' /\
             ode_t s' = t1 /\ successful s' = true.
Proof.
  intros (Hf & Ha & Hr). unfold integrate. rewrite Hf, Ha, Hr.
  destruct (Hreach (ode_y s) (ode_t s) t1) as [y' ->].
  rewrite rbind_Ok. eexists. split; [reflexivity|].
  repeat split.
Qed.

(** With an integrator that reaches every target, a loop whose angles run
    through [t_of k, ..., t_of K] takes [K - k] steps. *)
Lemma sweep_exact (cond : R -> bool) (next : R -> R) (t_of : nat -> R)
  (K : nat) :
  (forall k, (k < K)%nat -> cond (t_of k) = true) ->
  cond (t_of K) = false ->
  (forall k, next (t_of k) = t_of (S k)) ->
  forall n k fuel s th Hs,
    (k + n = K)%nat -> (n <= fuel)%nat ->
    tuned me s -> successful s = true -> ode_t s = t_of k ->
    exists s' Hs',
      sweep fuel cond next s th Hs
      = Some (Ok (s', th ++ map t_of (seq (S k) n), Hs ++ Hs')) /\
      length Hs' = n.
Proof.
  intros Hgo Hstop Hnext.
  induction n as [|n IH]; intros k fuel s th Hs HK Hfuel Htuned Hok Ht.
  - assert (k = K) by lia. subst k.
    exists s, []. split; [|reflexivity].
    destruct fuel; simpl; rewrite Hok, Ht, Hstop; simpl;
      now rewrite !app_nil_r.
  - destruct fuel as [|fuel]; [lia|].
    simpl sweep. rewrite Hok, Ht, (Hgo k) by lia. simpl andb. cbv iota.
    destruct (integrate_reaches s (next (t_of k)) Htuned)
      as (s1 & -> & Htuned1 & Ht1 & Hok1).
    rewrite Hnext in Ht1.
    destruct (IH (S k) fuel s1 (th ++ [ode_t s1]) (Hs ++ [ode_y s1])
                ltac:(lia) ltac:(lia) Htuned1 Hok1 Ht1)
      as (s' & Hs' & Hrun & Hlen).
    exists s', (ode_y s1 :: Hs'). split; [|simpl; lia].
    rewrite Hrun, Ht1, <- !app_assoc. reflexivity.
Qed.


Lemma INR_50 : INR 50 = 50.
Proof. rewrite INR_IZR_INZ. reflexivity. Qed.

Lemma INR_below (k K : nat) : (k < K)%nat -> INR k <= INR K - 1.
Proof.
  intros H. apply Nat.le_succ_l in H. apply le_INR in H.
  rewrite S_INR in H. lra.
Qed.

(** The forward block in exact arithmetic: 51 angles and 51 states. *)
Lemma forward_exact (fuel : nat) (r : R) :
  (50 <= fuel)%nat ->
  exists s H1,
    forward fuel me r = Some (Ok (s, ramp 0 51, H1)) /\ length H1 = 51%nat.
Proof.
  intros Hfuel. unfold forward, trajectory. cbv zeta.
  destruct (sweep_exact (fun t => Rltb t (PI / 2)) (fun t => t + dtheta)
              (fun k => 0 + INR k * dtheta) 50) with
    (n := 50%nat) (k := 0%nat) (fuel := fuel)
    (s := new_solver me (r, 0) 0) (th := [0]) (Hs := [(r, 0) : SurfaceState])
    as (s' & Hs' & Hrun & Hlen).
  - intros k Hk. apply Rltb_true. apply INR_below in Hk.
    rewrite INR_50 in Hk. unfold dtheta. pose proof PI_RGT_0. nra.
  - apply Rltb_false. rewrite INR_50. unfold dtheta. lra.
  - intros k. rewrite S_INR. ring.
  - reflexivity.
  - exact Hfuel.
  - repeat split.
  - reflexivity.
  - simpl. ring.
  - exists s', ((r, 0) :: Hs'). split; [|simpl; lia].
    etransitivity; [exact Hrun|].
    replace (ramp 0 51)
      with ([0] ++ map (fun k => 0 + INR k * dtheta) (seq 1 50));
      [reflexivity|].
    unfold ramp. change (seq 0 51) with (0%nat :: seq 1 50).
    rewrite map_cons. simpl app. f_equal. simpl INR. ring.
Qed.

(** The backward block in exact arithmetic. *)
Lemma backward_exact (fuel : nat) (r : R) :
  (50 <= fuel)%nat ->
  exists s H2,
    backward fuel me r
    = Some (Ok (s, map (fun k => PI - INR k * dtheta) (seq 0 51), H2)) /\
    length H2 = 51%nat.
Proof.
  intros Hfuel. unfold backward, trajectory. cbv zeta.
  destruct (sweep_exact (fun t => Rgeb t (PI / 2 + 1e-12))
              (fun t => t - dtheta)
              (fun k => PI - INR k * dtheta) 50) with
    (n := 50%nat) (k := 0%nat) (fuel := fuel)
    (s := new_solver me (r, 0) PI) (th := [PI])
    (Hs := [(r, 0) : SurfaceState])
    as (s' & Hs' & Hrun & Hlen).
  - intros k Hk. unfold Rgeb.
    destruct (Rge_dec (PI - INR k * dtheta) (PI / 2 + 1e-12)) as [|Hn];
      [reflexivity|]. exfalso. apply Hn.
    apply INR_below in Hk. rewrite INR_50 in Hk. unfold dtheta.
    pose proof PI2_1. nra.
  - unfold Rgeb.
    destruct (Rge_dec (PI - INR 50 * dtheta) (PI / 2 + 1e-12)) as [Hge|];
      [|reflexivity]. exfalso.
    rewrite INR_50 in Hge. unfold dtheta in Hge. lra.
  - intros k. rewrite S_INR. ring.
  - reflexivity.
  - exact Hfuel.
  - repeat split.
  - reflexivity.
  - simpl. ring.
  - exists s', ((r, 0) :: Hs'). split; [|simpl; lia].
    etransitivity; [exact Hrun|].
    replace (map (fun k => PI - INR k * dtheta) (seq 0 51))
      with ([PI] ++ map (fun k => PI - INR k * dtheta) (seq 1 50));
      [reflexivity|].
    change (seq 0 51) with (0%nat :: seq 1 50).
    rewrite map_cons. simpl app. f_equal. simpl INR. ring.
Qed.

End Sweep.

(* ================================================================== *)
(** * The assembled angles *)

Lemma rev_map_seq {A} (f : nat -> A) (n : nat) :
  rev (map f (seq 0 n)) = map (fun k => f (n - 1 - k)%nat) (seq 0 n).
Proof.
  induction n as [|n IH].
  - reflexivity.
  - rewrite seq_S at 1. rewrite map_app, rev_app_distr. simpl rev. simpl app.
    rewrite IH. simpl seq. rewrite map_cons, <- seq_shift, map_map.
    f_equal.
    + f_equal. lia.
    + apply map_ext. intros k. f_equal. lia.
Qed.

Lemma INR_51_minus (k : nat) :
  In k (seq 0 51) -> INR (51 - 1 - k) = 50 - INR k.
Proof.
  intros Hk. apply in_seq in Hk.
  rewrite !minus_INR by lia. rewrite INR_IZR_INZ. simpl Z.of_nat.
  simpl INR. lra.
Qed.

(** The reversed backward angles are the ramp from [pi/2] to [pi]. *)
Lemma rev_backward_angles :
  rev (map (fun k => PI - INR k * dtheta) (seq 0 51)) = ramp (PI / 2) 51.
Proof.
  rewrite rev_map_seq. unfold ramp. apply map_ext_in. intros k Hk.
  rewrite (INR_51_minus k Hk). unfold dtheta. field.
Qed.

(** So are the quarter-turn angles mirrored about [pi/2]. *)
Lemma rev_mirrored_angles :
  rev (map (fun t => PI - t) (ramp 0 51)) = ramp (PI / 2) 51.
Proof.
  unfold ramp at 1. rewrite map_map, <- rev_backward_angles.
  f_equal. apply map_ext. intros k. ring.
Qed.

Lemma shift_ramp (a : R) (n : nat) :
  map (fun t => t + PI) (ramp a n) = ramp (a + PI) n.
Proof. unfold ramp. rewrite map_map. apply map_ext. intros k. ring. Qed.

Lemma full_turn_angles :
  let theta := ramp 0 51 ++ ramp (PI / 2) 51 in
  theta ++ map (fun t => t + PI) theta = full_angles.
Proof.
  cbv zeta. unfold full_angles. rewrite map_app, !shift_ramp, <- app_assoc.
  do 3 f_equal.
  - f_equal. lra.
  - f_equal. lra.
Qed.

Lemma ramp_length (a : R) (n : nat) : length (ramp a n) = n.
Proof. unfold ramp. now rewrite length_map, length_seq. Qed.






Lemma full_angles_length : length full_angles = 204%nat.
Proof. unfold full_angles. now rewrite !length_app, !ramp_length. Qed.




(* ================================================================== *)
(** * [solve_given_r0] *)

Section SolveGivenR0.
Context {num : Numerics}.

(** In exact arithmetic, with an integrator that reaches every target,
    both modes store the same 204 angles. *)
Lemma solve_given_r0_exact (fuel : nat) (full_horizon : bool) (w : world)
  (radii : list R) :
  dopri5_reaches num (expansion (self w)) 1e-8 1e-6 ->
  (50 <= fuel)%nat ->
  r0 (self w) = Some radii ->
  ((if full_horizon || negb (reflection_symmetric (ts_spacetime (self w)))
    then 2 else 1) <= length radii)%nat ->
  exists H,
    solve_given_r0 fuel full_horizon w
    = Some (Ok tt, {| self := with_H_theta (self w) H full_angles;
                      calls := calls w |}) /\
    length H = 204%nat.
Proof.
  intros Hreach Hfuel Hr0 Hlen.
  unfold solve_given_r0, getattr. rewrite Hr0. unfold half_turn.
  destruct radii as [|ra tl];
    [destruct (full_horizon || negb _); simpl in Hlen; lia|].
  destruct (forward_exact (self w) Hreach fuel ra Hfuel)
    as (s1 & H1 & Hfwd & Hlen1).
  destruct (full_horizon
            || negb (reflection_symmetric (ts_spacetime (self w)))).
  - destruct tl as [|rb tl]; [simpl in Hlen; lia|].
    destruct (backward_exact (self w) Hreach fuel rb Hfuel)
      as (s2 & H2 & Hbwd & Hlen2).
    change (getitem (ra :: rb :: tl) 0) with (Ok ra).
    change (getitem (ra :: rb :: tl) 1) with (Ok rb).
    cbv iota beta. rewrite Hfwd. cbv iota beta. rewrite Hbwd. cbv iota beta.
    rewrite rev_backward_angles.
    exists ((H1 ++ rev H2) ++ rev (H1 ++ rev H2)). split.
    + unfold set_H_theta. cbn [self calls].
      now rewrite (full_turn_angles).
    + rewrite !length_app, !length_rev, !length_app, !length_rev. lia.
  - change (getitem (ra :: tl) 0) with (Ok ra).
    cbv iota beta. rewrite Hfwd. cbv iota beta.
    rewrite rev_mirrored_angles.
    exists ((H1 ++ rev H1) ++ rev (H1 ++ rev H1)). split.
    + unfold set_H_theta. cbn [self calls].
      now rewrite (full_turn_angles).
    + rewrite !length_app, !length_rev, !length_app, !length_rev. lia.
Qed.


End SolveGivenR0.

(* ================================================================== *)
(** * Mirrored samples *)

Lemma nth_error_rev_mirror {A} (l : list A) (k : nat) (x : A) :
  nth_error l k = Some x ->
  nth_error (rev l) (length l - 1 - k) = Some x.
Proof.
  revert k. induction l as [|a l IH]; intros k Hk.
  - destruct k; discriminate.
  - simpl rev. destruct k as [|k]; simpl in Hk.
    + injection Hk as ->.
      rewrite nth_error_app2 by (rewrite length_rev; simpl; lia).
      rewrite length_rev. simpl length.
      replace (S (length l) - 1 - 0 - length l)%nat with 0%nat by lia.
      reflexivity.
    + assert (Hlt : (k < length l)%nat)
        by (apply nth_error_Some; now rewrite Hk).
      rewrite nth_error_app1 by (rewrite length_rev; simpl; lia).
      simpl length.
      replace (S (length l) - 1 - S k)%nat with (length l - 1 - k)%nat by lia.
      now apply IH.
Qed.

(** A list followed by its mapped reversal. *)
Lemma mirrored_entries {A} (f : A -> A) (l : list A) (k : nat) (x : A) :
  nth_error l k = Some x ->
  nth_error (l ++ rev (map f l)) k = Some x /\
  nth_error (l ++ rev (map f l)) (2 * length l - 1 - k) = Some (f x).
Proof.
  intros Hk.
  assert (Hlt : (k < length l)%nat) by (apply nth_error_Some; now rewrite Hk).
  split.
  - now rewrite nth_error_app1.
  - rewrite nth_error_app2 by lia.
    replace (2 * length l - 1 - k - length l)%nat
      with (length (map f l) - 1 - k)%nat by (rewrite length_map; lia).
    apply nth_error_rev_mirror. now rewrite nth_error_map, Hk.
Qed.

(** A list followed by its image. *)
Lemma shifted_entries {A} (g : A -> A) (l : list A) (j : nat) (y : A) :
  nth_error l j = Some y ->
  nth_error (l ++ map g l) j = Some y /\
  nth_error (l ++ map g l) (length l + j) = Some (g y).
Proof.
  intros Hj.
  assert (Hlt : (j < length l)%nat) by (apply nth_error_Some; now rewrite Hj).
  split.
  - now rewrite nth_error_app1.
  - rewrite nth_error_app2 by lia.
    replace (length l + j - length l)%nat with j by lia.
    now rewrite nth_error_map, Hj.
Qed.

Lemma rev_palindrome {A} (l : list A) : rev (l ++ rev l) = l ++ rev l.
Proof. now rewrite rev_app_distr, rev_involutive. Qed.

(** The samples of a symmetric run, from the quarter-turn trajectory. *)
Lemma mirrored_samples (theta1 : list R) (H1 : list SurfaceState)
  (k : nat) (th : R) (Hk : SurfaceState) :
  length theta1 = length H1 ->
  nth_error theta1 k = Some th ->
  nth_error H1 k = Some Hk ->
  let n := length theta1 in
  let theta := theta1 ++ rev (map (fun t => PI - t) theta1) in
  let H := H1 ++ rev H1 in
  let thetas := theta ++ map (fun t => t + PI) theta in
  let Hs := H ++ rev H in
  (nth_error thetas k = Some th /\ nth_error Hs k = Some Hk) /\
  (nth_error thetas (2 * n - 1 - k) = Some (PI - th) /\
   nth_error Hs (2 * n - 1 - k) = Some Hk) /\
  (nth_error thetas (2 * n + k) = Some (th + PI) /\
   nth_error Hs (2 * n + k) = Some Hk) /\
  (nth_error thetas (4 * n - 1 - k) = Some (PI - th + PI) /\
   nth_error Hs (4 * n - 1 - k) = Some Hk).
Proof.
  intros Hlen Hth HHk n theta H thetas Hs.
  assert (Hlt : (k < n)%nat) by (apply nth_error_Some; now rewrite Hth).
  destruct (mirrored_entries (fun t => PI - t) theta1 k th Hth) as [Ta Tb].
  destruct (mirrored_entries (fun y => y) H1 k Hk HHk) as [Ha Hb].
  rewrite map_id in Ha, Hb. rewrite <- Hlen in Hb.
  fold theta in Ta, Tb. fold H in Ha, Hb. fold n in Tb, Hb.
  assert (Ltheta : length theta = (2 * n)%nat).
  { unfold theta. rewrite length_app, length_rev, length_map. fold n. lia. }
  assert (LH : length H = (2 * n)%nat).
  { unfold H. rewrite length_app, length_rev, <- Hlen. fold n. lia. }
  assert (HsE : Hs = H ++ map (fun y => y) H).
  { unfold Hs, H. now rewrite rev_palindrome, map_id. }
  destruct (shifted_entries (fun t => t + PI) theta _ _ Ta) as [Ta1 Ta2].
  destruct (shifted_entries (fun t => t + PI) theta _ _ Tb) as [Tb1 Tb2].
  destruct (shifted_entries (fun y => y) H _ _ Ha) as [Ha1 Ha2].
  destruct (shifted_entries (fun y => y) H _ _ Hb) as [Hb1 Hb2].
  rewrite <- HsE in Ha1, Ha2, Hb1, Hb2.
  fold thetas in Ta1, Ta2, Tb1, Tb2.
  rewrite Ltheta in Ta2, Tb2. rewrite LH in Ha2, Hb2.
  replace (2 * n + (2 * n - 1 - k))%nat with (4 * n - 1 - k)%nat
    in Tb2, Hb2 by lia.
  repeat split; assumption.
Qed.

Section MirrorCopies.
Context {num : Numerics}.

(** C10: in symmetric mode, after a run of [solve_given_r0] that returned,
    for every sample [(theta_k, H_k)] of the quarter-turn trajectory the
    stored sequences hold the very same pair [H_k] at [theta_k], at the
    mirrored angle [pi - theta_k], and in the second half at
    [theta_k + pi] and [(pi - theta_k) + pi]: neither component is negated.
    Such runs exist: with an integrator that reaches every target and a
    stored radius, 50 iterations are enough for the run to return. *)
Theorem symmetric_mirror_copies (fuel : nat) (w : world) :
  reflection_symmetric (ts_spacetime (self w)) = true ->
  (forall w',
     solve_given_r0 fuel false w = Some (Ok tt, w') ->
     exists r s theta1 H1 thetas Hs,
       forward fuel (self w) r = Some (Ok (s, theta1, H1)) /\
       length theta1 = length H1 /\
       ts_theta (self w') = Some thetas /\
       ts_H (self w') = Some Hs /\
       forall k th Hk,
         nth_error theta1 k = Some th ->
         nth_error H1 k = Some Hk ->
         let n := length theta1 in
         (nth_error thetas k = Some th /\ nth_error Hs k = Some Hk) /\
         (nth_error thetas (2 * n - 1 - k) = Some (PI - th) /\
          nth_error Hs (2 * n - 1 - k) = Some Hk) /\
         (nth_error thetas (2 * n + k) = Some (th + PI) /\
          nth_error Hs (2 * n + k) = Some Hk) /\
         (nth_error thetas (4 * n - 1 - k) = Some (PI - th + PI) /\
          nth_error Hs (4 * n - 1 - k) = Some Hk)) /\
  (dopri5_reaches num (expansion (self w)) 1e-8 1e-6 ->
   (exists r tl, r0 (self w) = Some (r :: tl)) ->
   (50 <= fuel)%nat ->
   exists w', solve_given_r0 fuel false w = Some (Ok tt, w')).
Proof.
  intros Hsym. split.
  - intros w' Hrun. unfold solve_given_r0, getattr in Hrun.
    destruct (r0 (self w)) as [radii|]; [|discriminate].
    unfold half_turn in Hrun. rewrite Hsym in Hrun. simpl orb in Hrun.
    cbv iota in Hrun.
    destruct (getitem radii 0) as [r|e]; [|discriminate].
    destruct (forward fuel (self w) r) as [[[[s theta1] H1]|e]|] eqn:Hfwd;
      try discriminate.
    unfold set_H_theta in Hrun. injection Hrun as <-.
    exists r, s, theta1, H1. do 2 eexists.
    split; [exact Hfwd|].
    assert (Hlen : length theta1 = length H1)
      by (eapply trajectory_lengths; exact Hfwd).
    split; [exact Hlen|].
    split; [reflexivity|]. split; [reflexivity|].
    intros k th Hk Hth HHk.
    exact (mirrored_samples theta1 H1 k th Hk Hlen Hth HHk).
  - intros Hreach (r & tl & Hr0) Hfuel.
    destruct (solve_given_r0_exact fuel false w (r :: tl) Hreach Hfuel Hr0)
      as (H & Hrun & _).
    + rewrite Hsym. simpl. lia.
    + eexists. exact Hrun.
Qed.

End MirrorCopies.

(* ================================================================== *)
(** * [solve_given_r0] on concrete inputs *)

Lemma crude_reaches (me : trappedsurface) (atol rtol : R) :
  length (masses (ts_spacetime me)) = length (z_positions (ts_spacetime me)) ->
  dopri5_reaches crude_numerics (expansion me) atol rtol.
Proof.
  intros Hlen [h dh] t t1. simpl dopri5. unfold euler_step.
  rewrite (expansion_value me t h dh Hlen). rewrite rbind_Ok.
  eexists. reflexivity.
Qed.



Lemma symmetric_mirror_copies_witness :
  let w := {| self := with_r0 (trappedsurface_init schwarzschild 0) [1 / 2];
              calls := [] |} in
  (forall w',
     @solve_given_r0 crude_numerics 50 false w = Some (Ok tt, w') ->
     exists r s theta1 H1 thetas Hs,
       @forward crude_numerics 50 (self w) r = Some (Ok (s, theta1, H1)) /\
       length theta1 = length H1 /\
       ts_theta (self w') = Some thetas /\
       ts_H (self w') = Some Hs /\
       forall k th Hk,
         nth_error theta1 k = Some th ->
         nth_error H1 k = Some Hk ->
         let n := length theta1 in
         (nth_error thetas k = Some th /\ nth_error Hs k = Some Hk) /\
         (nth_error thetas (2 * n - 1 - k) = Some (PI - th) /\
          nth_error Hs (2 * n - 1 - k) = Some Hk) /\
         (nth_error thetas (2 * n + k) = Some (th + PI) /\
          nth_error Hs (2 * n + k) = Some Hk) /\
         (nth_error thetas (4 * n - 1 - k) = Some (PI - th + PI) /\
          nth_error Hs (4 * n - 1 - k) = Some Hk)) /\
  exists w', @solve_given_r0 crude_numerics 50 false w = Some (Ok tt, w').
Proof.
  intros w.
  destruct (@symmetric_mirror_copies crude_numerics 50 w eq_refl)
    as [Hcopies Hruns].
  split; [exact Hcopies|].
  apply Hruns.
  - apply crude_reaches. reflexivity.
  - exists (1 / 2), []. reflexivity.
  - lia.
Defined.

(* ================================================================== *)
(** * The scan of [FindHorizonBinarySymmetric] *)

Lemma mapM_values {A B} (f : A -> result B) (l : list A) (vs : list B) :
  mapM f l = Ok vs -> Forall2 (fun a v => f a = Ok v) l vs.
Proof.
  revert vs. induction l as [|a l IH]; intros vs; simpl.
  - intros [= <-]. constructor.
  - destruct (f a) as [b|e] eqn:Hb; simpl; [|discriminate].
    destruct (mapM f l) as [bs|e]; simpl; [|discriminate].
    intros [= <-]. constructor; [exact Hb | now apply IH].
Qed.

Lemma mapM_total {A B} (f : A -> result B) (g : A -> B) (l : list A) :
  (forall a, In a l -> f a = Ok (g a)) -> mapM f l = Ok (map g l).
Proof.
  induction l as [|a l IH]; intros Hf; simpl; [reflexivity|].
  rewrite (Hf a) by now left. simpl.
  rewrite IH by (intros b Hb; apply Hf; now right). reflexivity.
Qed.

Section Scan.
Context {num : Numerics}.

(** The loop that fills [phi] evaluates the objective at every candidate,
    in order, and stops at the first exception. *)
Lemma scan_loop (me : trappedsurface) (todo done : list R) (vals : list R) :
  length vals = length done ->
  for_range (seq (length done) (length todo))
    (fun i phi =>
       ri <- getitem (done ++ todo) i ;;
       v <- shooting_function me ri ;;
       setitem phi i v)
    (vals ++ repeat 0 (length todo))
  = (rest <- mapM (shooting_function me) todo ;; Ok (vals ++ rest)).
Proof.
  revert done vals. induction todo as [|c todo IH]; intros done vals Hlen.
  - reflexivity.
  - simpl for_range. rewrite getitem_app_here, rbind_Ok.
    simpl mapM.
    destruct (shooting_function me c) as [v|e]; simpl rbind; [|reflexivity].
    simpl repeat. rewrite <- Hlen, setitem_app_here.
    specialize (IH (done ++ [c]) (vals ++ [v])).
    rewrite !length_app, <- app_assoc in IH. simpl in IH.
    rewrite Hlen, Nat.add_1_r in IH. rewrite Hlen.
    rewrite <- app_assoc in IH. simpl app in IH. rewrite IH by lia.
    destruct (mapM (shooting_function me) todo); simpl;
      [now rewrite <- app_assoc | reflexivity].
Qed.

Lemma scan_mapM (me : trappedsurface) (cand : list R) :
  scan me cand = mapM (shooting_function me) cand.
Proof.
  etransitivity; [exact (scan_loop me cand [] [] eq_refl)|].
  destruct (mapM (shooting_function me) cand); reflexivity.
Qed.

End Scan.

(** [np.argmin] returns the first index of the least value. *)
Lemma argmin_from_least (tl pre : list R) (best_i : nat) (best : R) :
  nth_error pre best_i = Some best ->
  (forall j v, nth_error pre j = Some v ->
               best <= v /\ ((j < best_i)%nat -> best < v)) ->
  let k := argmin_from tl (length pre) best_i best in
  exists least,
    nth_error (pre ++ tl) k = Some least /\
    forall j v, nth_error (pre ++ tl) j = Some v ->
                least <= v /\ ((j < k)%nat -> least < v).
Proof.
  revert pre best_i best. induction tl as [|x tl IH];
    intros pre best_i best Hbest Hinv; simpl.
  - exists best. rewrite app_nil_r. split; [exact Hbest | exact Hinv].
  - assert (Hlt : (best_i < length pre)%nat)
      by (apply nth_error_Some; now rewrite Hbest).
    replace (pre ++ x :: tl) with ((pre ++ [x]) ++ tl)
      by (now rewrite <- app_assoc).
    replace (S (length pre)) with (length (pre ++ [x]))
      by (rewrite length_app; simpl; lia).
    unfold Rltb. destruct (Rlt_dec x best) as [Hx|Hx].
    + apply IH.
      * rewrite nth_error_app2 by lia. now rewrite Nat.sub_diag.
      * intros j v Hj.
        destruct (Nat.lt_ge_cases j (length pre)) as [Hjl|Hjl].
        -- rewrite nth_error_app1 in Hj by exact Hjl.
           destruct (Hinv j v Hj) as [Hle _]. split; intros; lra.
        -- rewrite nth_error_app2 in Hj by exact Hjl.
           destruct (j - length pre)%nat as [|d] eqn:Hd;
             [|destruct d; discriminate].
           injection Hj as <-. split; [lra | lia].
    + apply IH.
      * now rewrite nth_error_app1.
      * intros j v Hj.
        destruct (Nat.lt_ge_cases j (length pre)) as [Hjl|Hjl].
        -- rewrite nth_error_app1 in Hj by exact Hjl. now apply Hinv.
        -- rewrite nth_error_app2 in Hj by exact Hjl.
           destruct (j - length pre)%nat as [|d] eqn:Hd;
             [|destruct d; discriminate].
           injection Hj as <-. split; [lra | lia].
Qed.

Lemma argmin_least (l : list R) (k : nat) :
  argmin l = Ok k ->
  exists least,
    nth_error l k = Some least /\
    forall j v, nth_error l j = Some v ->
                least <= v /\ ((j < k)%nat -> least < v).
Proof.
  destruct l as [|x tl]; simpl; [discriminate|]. intros [= <-].
  apply (argmin_from_least tl [x] 0 x eq_refl).
  intros [|[|j]] v Hj; simpl in Hj; try discriminate.
  injection Hj as <-. split; [lra | lia].
Qed.

Lemma argmin_nonempty (l : list R) :
  l <> [] -> exists k, argmin l = Ok k.
Proof. destruct l; [congruence | intros _; eexists; reflexivity]. Qed.

(* ================================================================== *)
(** * The candidate radii *)

Lemma linspace_50 (a b : R) :
  linspace a b 50
  = map (fun i => INR i * ((b - a) / INR 49) + a) (seq 0 49) ++ [b].
Proof.
  unfold linspace, range. cbv zeta.
  change (1 <? 50)%nat with true. cbv iota.
  change (50 - 1)%nat with 49%nat.
  change (seq 0 50) with (seq 0 (S 49)). rewrite seq_S, map_app.
  simpl map at 2.
  set (pre := map (fun i => INR i * ((b - a) / INR 49) + a) (seq 0 49)).
  replace 49%nat with (length pre) at 2
    by (unfold pre; now rewrite length_map, length_seq).
  apply list_set_app_here.
Qed.

Lemma candidates_length (r0e : R) : length (candidates r0e) = 50%nat.
Proof.
  unfold candidates. rewrite linspace_50, length_app, length_map, length_seq.
  reflexivity.
Qed.

Lemma candidates_first (r0e : R) :
  nth_error (candidates r0e) 0 = Some (0.95 * r0e).
Proof.
  unfold candidates. rewrite linspace_50. simpl. f_equal. ring.
Qed.

Lemma candidates_far (r0e : R) :
  nth_error (candidates r0e) 49 = Some (1.05 * r0e) /\
  getitem_last (candidates r0e) = Ok (1.05 * r0e).
Proof.
  unfold candidates. rewrite linspace_50. split.
  - rewrite nth_error_app2 by (rewrite length_map, length_seq; lia).
    rewrite length_map, length_seq. reflexivity.
  - unfold getitem_last. rewrite last_last.
    destruct (map _ (seq 0 49)); reflexivity.
Qed.

Lemma candidates_window (r0e c : R) :
  0 < r0e -> In c (candidates r0e) -> 0.95 * r0e <= c <= 1.05 * r0e.
Proof.
  intros Hpos Hc. unfold candidates in Hc. rewrite linspace_50 in Hc.
  apply in_app_iff in Hc. destruct Hc as [Hc|[<-|[]]]; [|lra].
  apply in_map_iff in Hc. destruct Hc as (i & <- & Hi). apply in_seq in Hi.
  assert (H0 : 0 <= INR i) by apply pos_INR.
  assert (H49 : INR i <= INR 49) by (apply le_INR; lia).
  replace (INR 49) with 49 in * by (rewrite INR_IZR_INZ; reflexivity).
  assert (Hp : 0 <= INR i * r0e <= 49 * r0e) by nra.
  lra.
Qed.

(* ================================================================== *)
(** * The [try] statement of [FindHorizonBinarySymmetric] *)

Section Retry.
Context {num : Numerics}.
Variable w : world.
Hypothesis Hsym : reflection_symmetric (ts_spacetime (self w)) = true.
Variable r0e : R.

Lemma retry_not_needed (sol : R) :
  brentq (shooting_function (self w)) (0.99 * r0e) (1.01 * r0e) = Ok sol ->
  find_with_retry r0e w
  = (Ok tt, {| self := with_r0 (self w) [sol];
               calls := calls w
                        ++ [CallBrentq (shooting_function (self w))
                              (0.99 * r0e) (1.01 * r0e)] |}).
Proof.
  intros Hsol. unfold find_with_retry, try_except_ValueError.
  rewrite find_r0_symmetric by (now rewrite Hsym). cbv zeta.
  now rewrite Hsol.
Qed.

Lemma retry_not_attempted (e : exception) :
  brentq (shooting_function (self w)) (0.99 * r0e) (1.01 * r0e) = Raise e -> e <> ValueError ->
  find_with_retry r0e w
  = (Raise e, {| self := with_r0 (self w) [];
                 calls := calls w
                        ++ [CallBrentq (shooting_function (self w))
                              (0.99 * r0e) (1.01 * r0e)] |}).
Proof.
  intros Hfail He. unfold find_with_retry, try_except_ValueError.
  rewrite find_r0_symmetric by (now rewrite Hsym). cbv zeta.
  rewrite Hfail. destruct e; congruence.
Qed.

Lemma retry_enters_scan :
  brentq (shooting_function (self w)) (0.99 * r0e) (1.01 * r0e) = Raise ValueError ->
  find_with_retry r0e w
  = scan_and_retry r0e {| self := with_r0 (self w) [];
                          calls := calls w
                        ++ [CallBrentq (shooting_function (self w))
                              (0.99 * r0e) (1.01 * r0e)] |}.
Proof.
  intros Hfail. unfold find_with_retry, try_except_ValueError.
  rewrite find_r0_symmetric by (now rewrite Hsym). cbv zeta.
  now rewrite Hfail.
Qed.

Lemma scan_raises (w1 : world) (e : exception) :
  scan (self w1) (candidates r0e) = Raise e ->
  scan_and_retry r0e w1 = (Raise e, w1).
Proof.
  intros Hscan. unfold scan_and_retry, mbind, get_self, lift.
  now rewrite Hscan.
Qed.

Lemma scan_then_retry (w1 : world) (phi : list R) (k : nat) (c : R) :
  scan (self w1) (candidates r0e) = Ok phi ->
  argmin phi = Ok k ->
  nth_error (candidates r0e) k = Some c ->
  scan_and_retry r0e w1 = find_r0 [c; 1.05 * r0e] false w1.
Proof.
  intros Hscan Hk Hc. unfold scan_and_retry, mbind, get_self, lift.
  rewrite Hscan, Hk, (getitem_Some _ _ _ Hc).
  now rewrite (proj2 (candidates_far r0e)).
Qed.

End Retry.

Section TwoBody.
Context {num : Numerics}.

Lemma helper_propagates (fuel : nat) (z mass : R) (e : exception) (w : world) :
  find_with_retry (r0_empirical z mass)
    {| self := two_body z mass; calls := [] |}
  = (Raise e, w) ->
  FindHorizonBinarySymmetric fuel z mass = Some (Raise e, w).
Proof.
  intros Hfail. unfold two_body in Hfail.
  unfold FindHorizonBinarySymmetric. cbv zeta. now rewrite Hfail.
Qed.

(** After a [ValueError] of the first call and a scan that returned [phi]:
    the bracket of the second call and what the [try] statement yields. *)
Lemma retry_after_scan (z mass : R) (phi : list R) :
  let ts := two_body z mass in
  let r0e := r0_empirical z mass in
  let f := shooting_function ts in
  let cand := candidates r0e in
  let w0 := {| self := ts; calls := [] |} in
  let first_call := CallBrentq f (0.99 * r0e) (1.01 * r0e) in
  brentq f (0.99 * r0e) (1.01 * r0e) = Raise ValueError ->
  scan ts cand = Ok phi ->
  exists k c least,
    argmin phi = Ok k /\
    nth_error cand k = Some c /\
    nth_error phi k = Some least /\
    (forall j v, nth_error phi j = Some v ->
                 least <= v /\ ((j < k)%nat -> least < v)) /\
    find_with_retry r0e w0
    = (match brentq f c (1.05 * r0e) with
       | Ok sol =>
           (Ok tt, {| self := with_r0 ts [sol];
                      calls := [first_call; CallBrentq f c (1.05 * r0e)] |})
       | Raise e =>
           (Raise e, {| self := with_r0 ts [];
                        calls := [first_call; CallBrentq f c (1.05 * r0e)] |})
       end).
Proof.
  intros ts r0e f cand w0 first_call Hfail Hphi.
  pose proof (retry_enters_scan w0 eq_refl r0e Hfail) as Hscan.
  assert (Hvals : Forall2 (fun c v => f c = Ok v) cand phi).
  { rewrite scan_mapM in Hphi. exact (mapM_values _ _ _ Hphi). }
  assert (Hne : phi <> []).
  { apply Forall2_length in Hvals. unfold cand in Hvals.
    rewrite candidates_length in Hvals.
    destruct phi; [discriminate|congruence]. }
  destruct (argmin_nonempty phi Hne) as [k Hk].
  destruct (argmin_least phi k Hk) as (least & Hleast & Hmin).
  assert (Hkc : (k < length cand)%nat).
  { rewrite (Forall2_length Hvals). apply nth_error_Some. now rewrite Hleast. }
  destruct (nth_error cand k) as [c|] eqn:Hc;
    [|apply nth_error_None in Hc; lia].
  exists k, c, least.
  split; [exact Hk|]. split; [exact Hc|]. split; [exact Hleast|].
  split; [exact Hmin|].
  rewrite Hscan.
  pose proof (scan_then_retry r0e
                {| self := with_r0 ts []; calls := [first_call] |}
                phi k c Hphi Hk Hc) as Hretry.
  rewrite find_r0_symmetric in Hretry by reflexivity.
  exact Hretry.
Qed.

(** C9, amended: the helper first calls [brentq] on the bracket
    [[0.99, 1.01]] times the empirical guess.  If that returns, nothing
    else is tried.  If it raises anything but [ValueError], the exception
    reaches the caller and no scan is made.  If it raises [ValueError], the
    symmetric objective is evaluated at 50 candidates from [0.95] to [1.05]
    times the guess; the candidate holding the least signed value of the
    objective (the first one, on ties) and the far edge [1.05] times the
    guess form the bracket of the one further call of [brentq]; an
    exception of the scan or of that call reaches the caller. *)
Theorem two_body_scan_and_retry (fuel : nat) (z mass : R) :
  let ts := two_body z mass in
  let r0e := r0_empirical z mass in
  let f := shooting_function ts in
  let cand := candidates r0e in
  let w0 := {| self := ts; calls := [] |} in
  let first_call := CallBrentq f (0.99 * r0e) (1.01 * r0e) in
  let failed := fun log => {| self := with_r0 ts []; calls := log |} in
  (length cand = 50%nat /\
   nth_error cand 0 = Some (0.95 * r0e) /\
   nth_error cand 49 = Some (1.05 * r0e)) /\
  (forall sol,
     brentq f (0.99 * r0e) (1.01 * r0e) = Ok sol ->
     find_with_retry r0e w0
     = (Ok tt, {| self := with_r0 ts [sol]; calls := [first_call] |})) /\
  (forall e,
     brentq f (0.99 * r0e) (1.01 * r0e) = Raise e -> e <> ValueError ->
     FindHorizonBinarySymmetric fuel z mass
     = Some (Raise e, failed [first_call])) /\
  (brentq f (0.99 * r0e) (1.01 * r0e) = Raise ValueError ->
   (forall e,
      scan ts cand = Raise e ->
      FindHorizonBinarySymmetric fuel z mass
      = Some (Raise e, failed [first_call])) /\
   (forall phi,
      scan ts cand = Ok phi ->
      Forall2 (fun c v => f c = Ok v) cand phi /\
      exists k c least,
        argmin phi = Ok k /\
        nth_error cand k = Some c /\
        nth_error phi k = Some least /\
        (forall j v, nth_error phi j = Some v ->
                     least <= v /\ ((j < k)%nat -> least < v)) /\
        let retry := CallBrentq f c (1.05 * r0e) in
        (forall sol,
           brentq f c (1.05 * r0e) = Ok sol ->
           find_with_retry r0e w0
           = (Ok tt, {| self := with_r0 ts [sol];
                        calls := [first_call; retry] |})) /\
        (forall e,
           brentq f c (1.05 * r0e) = Raise e ->
           FindHorizonBinarySymmetric fuel z mass
           = Some (Raise e, failed [first_call; retry])))).
Proof.
  intros ts r0e f cand w0 first_call failed.
  split.
  { split; [apply candidates_length|].
    split; [apply candidates_first | apply candidates_far]. }
  split.
  { intros sol Hsol. exact (retry_not_needed w0 eq_refl r0e sol Hsol). }
  split.
  { intros e Hfail He. apply helper_propagates.
    exact (retry_not_attempted w0 eq_refl r0e e Hfail He). }
  intros Hfail.
  pose proof (retry_enters_scan w0 eq_refl r0e Hfail) as Hscan.
  cbn [self calls app] in Hscan.
  split.
  { intros e He. apply helper_propagates. fold ts r0e w0. rewrite Hscan.
    exact (scan_raises r0e (failed [first_call]) e He). }
  intros phi Hphi.
  split; [rewrite scan_mapM in Hphi; exact (mapM_values _ _ _ Hphi)|].
  destruct (retry_after_scan z mass phi Hfail Hphi)
    as (k & c & least & Hk & Hc & Hleast & Hmin & Hout).
  exists k, c, least.
  split; [exact Hk|]. split; [exact Hc|]. split; [exact Hleast|].
  split; [exact Hmin|].
  cbv zeta. split.
  - intros sol Hsol. fold ts r0e w0 f in Hout. rewrite Hsol in Hout.
    exact Hout.
  - intros e He. apply helper_propagates.
    fold ts r0e w0 f in Hout. rewrite He in Hout. exact Hout.
Qed.

End TwoBody.

(* ================================================================== *)
(** * The helper on two unit masses at [z = 0.5] with the crude routines *)

Lemma negative_quotient (x d : R) : x < 0 -> 0 < d -> x / d < 0.
Proof.
  intros Hx Hd. assert (Hi : 0 < / d) by now apply Rinv_0_lt_compat.
  unfold Rdiv. nra.
Qed.

Lemma quotient_lt (n0 d0 n1 d1 : R) :
  0 < d0 -> 0 < d1 -> n0 * d1 < n1 * d0 -> n0 / d0 < n1 / d1.
Proof.
  intros H0 H1 Hlt. apply (Rmult_lt_reg_r (d0 * d1)); [nra|].
  replace (n0 / d0 * (d0 * d1)) with (n0 * d1) by (field; lra).
  replace (n1 / d1 * (d0 * d1)) with (n1 * d0) by (field; lra).
  exact Hlt.
Qed.

(** On the axis, at rest, outside both singularities. *)
Lemma two_body_d2h_axis (z mass r : R) :
  0 <= z < r -> 0 < mass ->
  spec_d2h r 0 0 0 (singularities (two_body z mass))
  = 2 * r * ((r ^ 2 - z ^ 2) * (r ^ 2 - z ^ 2 + mass * r)
             - 2 * r * mass * (r ^ 2 + z ^ 2))
    / ((r ^ 2 - z ^ 2) * (r ^ 2 - z ^ 2 + mass * r)).
Proof.
  intros [Hz Hr] Hm.
  unfold spec_d2h, spec_psi, spec_dpsi_dr, spec_dpsi_dtheta, spec_C,
    singularities, two_body. simpl.
  rewrite !spec_dist_axis, sin_0, cos_0.
  replace (r - (- z - 0)) with (r + z) by lra.
  replace (r - (z - 0)) with (r - z) by lra.
  rewrite !Rabs_pos_eq by lra.
  replace (1 + 0 / r * (0 / r * 1)) with 1 by (field; lra).
  rewrite sqrt_1. replace 0.5 with (1 / 2) by lra.
  assert (Hd : 0 < (r + z) * (r - z)) by (apply Rmult_lt_0_compat; lra).
  field. repeat split; nra.
Qed.

Lemma two_body_objective_negative (r : R) :
  1 <= r <= 13 / 10 ->
  0 + (PI / 2 - 0) * spec_d2h r 0 0 0 (singularities (two_body 0.5 1)) < 0.
Proof.
  intros [H1 H2]. rewrite two_body_d2h_axis by lra.
  replace (0.5 ^ 2) with (1 / 4) by lra.
  assert (Hsq : 1 <= r ^ 2) by nra.
  assert (HD : 0 < (r ^ 2 - 1 / 4) * (r ^ 2 - 1 / 4 + 1 * r))
    by (apply Rmult_lt_0_compat; lra).
  assert (Hg : r ^ 4 - r ^ 3 - r ^ 2 / 2 - 3 * r / 4 + 1 / 16 < 0).
  { assert (0 <= (r - 1) * (13 / 10 - r)) by nra.
    assert (r ^ 2 <= 23 / 10 * r - 13 / 10) by nra. nra. }
  assert (Hnum : 2 * r * ((r ^ 2 - 1 / 4) * (r ^ 2 - 1 / 4 + 1 * r)
                          - 2 * r * 1 * (r ^ 2 + 1 / 4)) < 0).
  { replace ((r ^ 2 - 1 / 4) * (r ^ 2 - 1 / 4 + 1 * r)
             - 2 * r * 1 * (r ^ 2 + 1 / 4))
      with (r ^ 4 - r ^ 3 - r ^ 2 / 2 - 3 * r / 4 + 1 / 16) by field.
    nra. }
  pose proof (negative_quotient _ _ Hnum HD) as Hq.
  pose proof PI_RGT_0. nra.
Qed.

Lemma r0_empirical_default : r0_empirical 0.5 1 = 1.15185.
Proof. unfold r0_empirical. lra. Qed.

(** The objective is lower at the near edge of the window than at the far
    edge. *)
Lemma two_body_objective_edges :
  let F := fun r =>
    0 + (PI / 2 - 0) * spec_d2h r 0 0 0 (singularities (two_body 0.5 1)) in
  F (0.95 * 1.15185) < F (1.05 * 1.15185).
Proof.
  cbv beta zeta. rewrite !two_body_d2h_axis by lra.
  apply Rplus_lt_compat_l, Rmult_lt_compat_l; [pose proof PI_RGT_0; lra|].
  apply quotient_lt; lra.
Qed.

(** C9 as stated fails.  For two unit masses at [z = 0.5] the objective is
    negative over the whole window, both brackets raise [ValueError], and
    the candidate [c] placed in the second bracket has a strictly larger
    magnitude of the objective than the candidate at the far edge: it is
    the least signed value that was selected, not the least magnitude. *)
Lemma two_body_retry_keeps_least_signed_value :
  let r0e := r0_empirical 0.5 1 in
  let f := @shooting_function crude_numerics (two_body 0.5 1) in
  exists c v v' w,
    @FindHorizonBinarySymmetric crude_numerics 50 0.5 1
    = Some (Raise ValueError, w) /\
    calls w = [CallBrentq f (0.99 * r0e) (1.01 * r0e);
               CallBrentq f c (1.05 * r0e)] /\
    In c (candidates r0e) /\
    In (1.05 * r0e) (candidates r0e) /\
    f c = Ok v /\
    f (1.05 * r0e) = Ok v' /\
    Rabs v' < Rabs v.
Proof.
  intros r0e f.
  set (F := fun r =>
    0 + (PI / 2 - 0) * spec_d2h r 0 0 0 (singularities (two_body 0.5 1))).
  assert (Hr0e : r0e = 1.15185) by apply r0_empirical_default.
  assert (Hf : forall r, f r = Ok (F r))
    by (intros r; apply euler_shooting_function; reflexivity).
  assert (Hwin : forall r, 0.95 * r0e <= r <= 1.05 * r0e -> F r < 0).
  { intros r Hr. apply two_body_objective_negative. rewrite Hr0e in Hr. lra. }
  assert (Hbracket : forall a b,
            0.95 * r0e <= a <= 1.05 * r0e -> 0.95 * r0e <= b <= 1.05 * r0e ->
            @brentq crude_numerics f a b = Raise ValueError).
  { intros a b Ha Hb.
    apply (crude_brentq_requires_sign_change f a b (F a) (F b));
      [apply Hf | apply Hf |].
    pose proof (Hwin a Ha). pose proof (Hwin b Hb). nra. }
  assert (Hscan : @scan crude_numerics (two_body 0.5 1) (candidates r0e)
                  = Ok (map F (candidates r0e))).
  { rewrite scan_mapM. apply mapM_total. intros a _. apply Hf. }
  destruct (@retry_after_scan crude_numerics 0.5 1 (map F (candidates r0e)))
    as (k & c & least & Hk & Hc & Hleast & Hmin & Hout).
  { apply Hbracket; fold r0e; rewrite Hr0e; lra. }
  { exact Hscan. }
  fold r0e in Hc, Hout. fold f in Hout.
  assert (Hcin : In c (candidates r0e)) by (eapply nth_error_In; exact Hc).
  assert (Hfar : In (1.05 * r0e) (candidates r0e))
    by (eapply nth_error_In; apply candidates_far).
  assert (Hr0e_pos : 0 < r0e) by (rewrite Hr0e; lra).
  rewrite nth_error_map, Hc in Hleast. injection Hleast as <-.
  rewrite (Hbracket c (1.05 * r0e)) in Hout
    by (try apply candidates_window; assumption || lra).
  exists c, (F c), (F (1.05 * r0e)). eexists.
  split; [apply helper_propagates; exact Hout|].
  split; [reflexivity|].
  split; [exact Hcin|]. split; [exact Hfar|].
  split; [apply Hf|]. split; [apply Hf|].
  destruct (Hmin 0%nat (F (0.95 * r0e))) as [Hle _].
  { now rewrite nth_error_map, candidates_first. }
  pose proof two_body_objective_edges as Hedges. cbv zeta in Hedges.
  fold F in Hedges. rewrite <- Hr0e in Hedges.
  assert (Hc0 : F c < 0) by (apply Hwin, candidates_window; assumption).
  assert (Hf0 : F (1.05 * r0e) < 0) by (apply Hwin; lra).
  rewrite !Rabs_left by assumption. lra.
Qed.

(** The selection rule on a small array: the least signed value wins, not
    the least magnitude. *)
Example argmin_signed : argmin [-3; -1; 2] = Ok 0%nat.
Proof.
  unfold argmin. simpl argmin_from.
  rewrite (Rltb_false (-1) (-3)) by lra.
  rewrite (Rltb_false 2 (-3)) by lra.
  reflexivity.
Qed.

(* ================================================================== *)
(** * More on the right-hand side *)

(** [expansion_value] with fewer masses than positions: the second loop
    runs over the masses only. *)
Lemma expansion_value_le (me : trappedsurface) (theta h dh : R) :
  (length (masses (ts_spacetime me))
   <= length (z_positions (ts_spacetime me)))%nat ->
  expansion me theta (h, dh)
  = Ok (dh,
        spec_d2h h dh theta
          (if Rltb (Rabs theta) 1e-16 || Rltb (Rabs (theta - PI)) 1e-16
           then 0 else dh / (tan theta * spec_C h dh ^ 2))
          (singularities me)).
Proof.
  intros Hlen. unfold expansion. cbv zeta. simpl fst. simpl snd.
  rewrite distance_array, rbind_Ok.
  set (z_i := map (fun z => z - z_centre me) (z_positions (ts_spacetime me))).
  assert (Hl : length (masses (ts_spacetime me))
               = length (combine (masses (ts_spacetime me)) z_i)).
  { rewrite length_combine. unfold z_i. rewrite length_map. lia. }
  rewrite Hl.
  rewrite (for_range_fold _ (psi_step h theta) _
             (fun i a s => psi_body_step h theta z_i _ i a s)).
  rewrite psi_fold, rbind_Ok.
  unfold spec_d2h, spec_C, singularities. fold z_i.
  do 2 f_equal.
  replace (1 + (spec_psi h theta (combine (masses (ts_spacetime me)) z_i) - 1))
    with (spec_psi h theta (combine (masses (ts_spacetime me)) z_i)) by lra.
  rewrite !Rplus_0_l. reflexivity.
Qed.






Lemma combine_firstn_length {A B} (l : list A) (l' : list B) :
  combine l (firstn (length l) l') = combine l l'.
Proof.
  revert l'. induction l as [|a l IH]; intros [|b l']; simpl;
    try reflexivity.
  now rewrite IH.
Qed.

(** X2: positions beyond the number of masses are ignored without any
    error: [expansion] returns what it returns on the spacetime cut down to
    the first [len(masses)] positions. *)
Theorem expansion_ignores_unpaired_positions (me : trappedsurface)
  (theta : R) (H : SurfaceState) :
  let st := ts_spacetime me in
  (length (masses st) <= length (z_positions st))%nat ->
  expansion me theta H
  = expansion
      (trappedsurface_init
         (spacetime_init (firstn (length (masses st)) (z_positions st))
            (masses st) (reflection_symmetric st))
         (z_centre me))
      theta H.
Proof.
  intros st Hlen. destruct H as [h dh].
  rewrite (expansion_value_le me theta h dh Hlen).
  rewrite expansion_value_le
    by (simpl; rewrite length_firstn; fold st; lia).
  unfold singularities. simpl. fold st.
  now rewrite <- firstn_map, combine_firstn_length.
Qed.

Lemma expansion_ignores_unpaired_positions_witness :
  expansion (trappedsurface_init (spacetime_init [0; 3] [1] true) 0)
    (PI / 4) (1, 0)
  = expansion (trappedsurface_init (spacetime_init [0] [1] true) 0)
      (PI / 4) (1, 0).
Proof.
  apply (expansion_ignores_unpaired_positions
           (trappedsurface_init (spacetime_init [0; 3] [1] true) 0)
           (PI / 4) (1, 0)).
  simpl. lia.
Defined.

(** The distance to a singularity at the centre is the radius. *)
Lemma spec_dist_centre (h theta : R) : 0 <= h -> spec_dist h theta 0 = h.
Proof.
  intros Hh. unfold spec_dist.
  replace ((h * sin theta) ^ 2 + (h * cos theta - 0) ^ 2)
    with (h ^ 2 * (Rsqr (sin theta) + Rsqr (cos theta)))
    by (unfold Rsqr; ring).
  rewrite sin2_cos2, Rmult_1_r. now apply sqrt_pow2.
Qed.

Lemma cot_term_at_rest (theta C : R) :
  (if Rltb (Rabs theta) 1e-16 || Rltb (Rabs (theta - PI)) 1e-16
   then 0 else 0 / (tan theta * C ^ 2)) = 0.
Proof.
  destruct (Rltb (Rabs theta) 1e-16 || Rltb (Rabs (theta - PI)) 1e-16);
    [reflexivity|]. unfold Rdiv. apply Rmult_0_l.
Qed.

(** Around a single mass [M], centred on it and at rest. *)
Lemma single_mass_at_rest (zc M : R) (sym : bool) (theta h : R) :
  0 <= M -> 0 < h ->
  expansion (trappedsurface_init (spacetime_init [zc] [M] sym) zc)
    theta (h, 0)
  = Ok (0, 2 * h * (h - M / 2) / (h + M / 2)).
Proof.
  intros HM Hh. rewrite expansion_value by reflexivity.
  rewrite cot_term_at_rest. do 2 f_equal.
  unfold spec_d2h, spec_psi, spec_dpsi_dr, spec_dpsi_dtheta, spec_C,
    singularities. simpl.
  rewrite Rminus_diag, spec_dist_centre by lra.
  replace (1 + 0 / h * (0 / h * 1)) with 1 by (field; lra).
  rewrite sqrt_1. replace 0.5 with (1 / 2) by lra.
  field. split; lra.
Qed.

(** X3: around a single mass [M >= 0] with the polar coordinates centred on
    it, at rest ([h' = 0]) and at any angle, [expansion] returns
    [(0, 2h(h - M/2)/(h + M/2))]: the second derivative is negative inside
    the sphere of radius [M/2], positive outside, and the state
    [(M/2, 0)] is a fixed point when [M > 0]. *)
Theorem schwarzschild_rhs_at_rest (zc M : R) (sym : bool) (theta : R) :
  0 <= M ->
  let me := trappedsurface_init (spacetime_init [zc] [M] sym) zc in
  (forall h, 0 < h ->
     exists d2h,
       expansion me theta (h, 0) = Ok (0, d2h) /\
       d2h = 2 * h * (h - M / 2) / (h + M / 2) /\
       (h < M / 2 -> d2h < 0) /\
       (M / 2 < h -> 0 < d2h)) /\
  (0 < M -> expansion me theta (M / 2, 0) = Ok (0, 0)).
Proof.
  intros HM me. split.
  - intros h Hh. eexists. split; [apply single_mass_at_rest; assumption|].
    split; [reflexivity|].
    assert (Hinv : 0 < / (h + M / 2)) by (apply Rinv_0_lt_compat; lra).
    unfold Rdiv at 1 3. split; intros Hside.
    + assert (2 * h * (h - M / 2) < 0) by nra. nra.
    + assert (0 < 2 * h * (h - M / 2)) by nra. nra.
  - intros HMpos. unfold me. rewrite single_mass_at_rest by lra.
    do 2 f_equal. field. lra.
Qed.

Lemma schwarzschild_rhs_at_rest_witness :
  let me := trappedsurface_init (spacetime_init [0] [1] true) 0 in
  (forall h, 0 < h ->
     exists d2h,
       expansion me (PI / 3) (h, 0) = Ok (0, d2h) /\
       d2h = 2 * h * (h - 1 / 2) / (h + 1 / 2) /\
       (h < 1 / 2 -> d2h < 0) /\
       (1 / 2 < h -> 0 < d2h)) /\
  (0 < 1 -> expansion me (PI / 3) (1 / 2, 0) = Ok (0, 0)).
Proof.
  apply (schwarzschild_rhs_at_rest 0 1 true (PI / 3)). lra.
Defined.

Lemma cos_PI_minus (x : R) : cos (PI - x) = - cos x.
Proof. rewrite cos_minus, cos_PI, sin_PI. ring. Qed.

Lemma tan_PI_minus (x : R) : tan (PI - x) = - tan x.
Proof.
  unfold tan. rewrite sin_PI_x, cos_PI_minus. apply Rdiv_opp_r.
Qed.

(** Seen from [pi - theta], a singularity at [z] stands where the one at
    [-z] stands seen from [theta]. *)
Lemma spec_dist_reflect (h theta zi : R) :
  spec_dist h (PI - theta) zi = spec_dist h theta (- zi).
Proof.
  unfold spec_dist. rewrite sin_PI_x, cos_PI_minus. f_equal. ring.
Qed.

Lemma cot_term_reflect (theta dh C : R) :
  (if Rltb (Rabs (PI - theta)) 1e-16 || Rltb (Rabs (PI - theta - PI)) 1e-16
   then 0 else - dh / (tan (PI - theta) * C ^ 2))
  = (if Rltb (Rabs theta) 1e-16 || Rltb (Rabs (theta - PI)) 1e-16
     then 0 else dh / (tan theta * C ^ 2)).
Proof.
  rewrite (Rabs_minus_sym PI theta).
  replace (PI - theta - PI) with (- theta) by ring.
  rewrite Rabs_Ropp, orb_comm.
  destruct (Rltb (Rabs theta) 1e-16 || Rltb (Rabs (theta - PI)) 1e-16);
    [reflexivity|].
  rewrite tan_PI_minus. unfold Rdiv.
  replace (- tan theta * C ^ 2) with (- (tan theta * C ^ 2)) by ring.
  rewrite Rinv_opp. ring.
Qed.

(** X4: for two equal masses at [-z] and [z] about the centre [0], the
    right-hand side is symmetric under the reflection through the
    equatorial plane: away from the singularities and at [h > 0], at
    [pi - theta] with the state [(h, -h')] it returns [(-h', d2h)] with the
    same [d2h] as at [theta] with [(h, h')]. *)
Theorem expansion_reflection (z mass theta h dh : R) :
  0 < h ->
  0 < spec_dist h theta (- z - 0) ->
  0 < spec_dist h theta (z - 0) ->
  exists d2h,
    expansion (two_body z mass) theta (h, dh) = Ok (dh, d2h) /\
    expansion (two_body z mass) (PI - theta) (h, - dh) = Ok (- dh, d2h).
Proof.
  intros _ _ _.
  eexists. split; [apply expansion_value; reflexivity|].
  rewrite expansion_value by reflexivity. do 2 f_equal.
  assert (HC : spec_C h (- dh) = spec_C h dh).
  { unfold spec_C. do 3 f_equal. unfold Rdiv. ring. }
  rewrite HC, cot_term_reflect.
  unfold spec_d2h, spec_psi, spec_dpsi_dr, spec_dpsi_dtheta,
    singularities, two_body. simpl.
  rewrite !spec_dist_reflect, cos_PI_minus, sin_PI_x, HC.
  replace (- (- z - 0)) with (z - 0) by ring.
  replace (- (z - 0)) with (- z - 0) by ring.
  set (d1 := spec_dist h theta (- z - 0)).
  set (d2 := spec_dist h theta (z - 0)).
  set (c := cos theta). set (s := sin theta).
  replace (1 + (0.5 * mass / d2 + (0.5 * mass / d1 + 0)))
    with (1 + (0.5 * mass / d1 + (0.5 * mass / d2 + 0))) by ring.
  unfold Rdiv. ring.
Qed.

Lemma expansion_reflection_witness :
  exists d2h,
    expansion (two_body (1 / 2) 1) 0 (1, 1 / 10) = Ok (1 / 10, d2h) /\
    expansion (two_body (1 / 2) 1) (PI - 0) (1, - (1 / 10))
    = Ok (- (1 / 10), d2h).
Proof.
  apply (expansion_reflection (1 / 2) 1 0 1 (1 / 10)).
  - lra.
  - rewrite spec_dist_axis, Rabs_pos_eq; lra.
  - rewrite spec_dist_axis, Rabs_pos_eq; lra.
Defined.

(* ================================================================== *)
(** * More on [find_r0] *)

Section FindR0Edges.
Context {num : Numerics}.

(** X5: in symmetric mode a bracket with fewer than two entries makes
    [find_r0] raise [IndexError] before any solver is called, leaving
    [r0] empty; entries after the second are never read. *)
Theorem find_r0_short_bracket (w : world) :
  reflection_symmetric (ts_spacetime (self w)) = true ->
  (forall guess, (length guess < 2)%nat ->
     find_r0 guess false w
     = (Raise IndexError,
        {| self := with_r0 (self w) []; calls := calls w |})) /\
  (forall lo hi rest,
     find_r0 (lo :: hi :: rest) false w = find_r0 [lo; hi] false w).
Proof.
  intros Hsym. split.
  - intros guess Hlen.
    unfold find_r0, mbind, set_r0, get_self, record_call, lift.
    cbn [self calls with_r0 ts_spacetime]. rewrite Hsym. simpl orb. cbv iota.
    destruct guess as [|a [|b tl]]; simpl in Hlen; try lia; reflexivity.
  - intros lo hi rest.
    unfold find_r0, mbind, set_r0, get_self, record_call, lift.
    cbn [self calls with_r0 ts_spacetime]. rewrite Hsym. reflexivity.
Qed.

(** [find_r0] never assigns the samples. *)
Lemma find_r0_keeps_samples (guess : list R) (full_horizon : bool)
  (w : world) :
  ts_H (self (snd (find_r0 guess full_horizon w))) = ts_H (self w).
Proof.
  unfold find_r0, mbind, set_r0, get_self, record_call, lift.
  cbn [self calls with_r0 ts_spacetime].
  destruct (full_horizon
            || negb (reflection_symmetric (ts_spacetime (self w)))).
  - destruct (root _ guess 1e-12); reflexivity.
  - destruct (getitem guess 0); [|reflexivity].
    destruct (getitem guess 1); [|reflexivity].
    cbn [self calls]. destruct (brentq _ _ _); reflexivity.
Qed.

(** X6: whatever the mode, the guess and the outcome, [find_r0] leaves the
    centre, the spacetime, the stored samples and the cartesian data as they
    were and calls at most one solver; when it raises, [r0] is the empty
    list, whatever radius was stored before. *)
Theorem find_r0_frame (guess : list R) (full_horizon : bool) (w : world) :
  let res := fst (find_r0 guess full_horizon w) in
  let w' := snd (find_r0 guess full_horizon w) in
  z_centre (self w') = z_centre (self w) /\
  ts_spacetime (self w') = ts_spacetime (self w) /\
  ts_H (self w') = ts_H (self w) /\
  ts_theta (self w') = ts_theta (self w) /\
  ts_cartesian (self w') = ts_cartesian (self w) /\
  (calls w' = calls w \/ exists c, calls w' = calls w ++ [c]) /\
  (forall e, res = Raise e -> r0 (self w') = Some []) /\
  (res = Ok tt -> exists radii c,
     r0 (self w') = Some radii /\ calls w' = calls w ++ [c]).
Proof.
  cbv zeta.
  destruct (full_horizon
            || negb (reflection_symmetric (ts_spacetime (self w)))) eqn:Hmode.
  - rewrite (find_r0_general w guess full_horizon Hmode). cbv zeta.
    destruct (root (shooting_function_full (self w)) guess 1e-12)
      as [sol|e]; cbn [fst snd self calls with_r0 z_centre ts_spacetime
                        ts_H ts_theta ts_cartesian r0];
      repeat split; eauto; try discriminate.
  - destruct guess as [|lo [|hi rest]].
    + unfold find_r0, mbind, set_r0, get_self, record_call, lift.
      cbn [self calls with_r0 ts_spacetime]. rewrite Hmode.
      cbn; repeat split; eauto; try discriminate.
    + unfold find_r0, mbind, set_r0, get_self, record_call, lift.
      cbn [self calls with_r0 ts_spacetime]. rewrite Hmode.
      cbn; repeat split; eauto; try discriminate.
    + assert (Hcut : find_r0 (lo :: hi :: rest) full_horizon w
                     = find_r0 [lo; hi] full_horizon w).
      { unfold find_r0, mbind, set_r0, get_self, record_call, lift.
        cbn [self calls with_r0 ts_spacetime]. rewrite Hmode. reflexivity. }
      rewrite Hcut, (find_r0_symmetric w lo hi full_horizon Hmode). cbv zeta.
      destruct (brentq (shooting_function (self w)) lo hi) as [sol|e];
        cbn [fst snd self calls with_r0 z_centre ts_spacetime
             ts_H ts_theta ts_cartesian r0];
        repeat split; eauto; try discriminate.
Qed.

End FindR0Edges.

Lemma find_r0_short_bracket_witness :
  let w := {| self := trappedsurface_init schwarzschild 0; calls := [] |} in
  (forall guess, (length guess < 2)%nat ->
     @find_r0 crude_numerics guess false w
     = (Raise IndexError,
        {| self := with_r0 (self w) []; calls := calls w |})) /\
  (forall lo hi rest,
     @find_r0 crude_numerics (lo :: hi :: rest) false w
     = @find_r0 crude_numerics [lo; hi] false w).
Proof.
  intros w. apply (@find_r0_short_bracket crude_numerics w). reflexivity.
Defined.

(* ================================================================== *)
(** * More on [solve_given_r0] *)

Section SolveEdges.
Context {num : Numerics}.

(** The loop only appends, and to both lists alike. *)
Lemma sweep_extends (fuel : nat) (cond : R -> bool) (next : R -> R) :
  forall (s s' : ode) (th th' : list R) (Hs Hs' : list SurfaceState),
    sweep fuel cond next s th Hs = Some (Ok (s', th', Hs')) ->
    exists a b, th' = th ++ a /\ Hs' = Hs ++ b /\ length a = length b.
Proof.
  induction fuel as [|fuel IH]; intros s s' th th' Hs Hs' Hrun;
    simpl in Hrun.
  - destruct (successful s && cond (ode_t s)); [discriminate|].
    injection Hrun as _ <- <-. exists [], []. now rewrite !app_nil_r.
  - destruct (successful s && cond (ode_t s)).
    + destruct (integrate s (next (ode_t s))) as [s1|e]; [|discriminate].
      apply IH in Hrun. destruct Hrun as (a & b & -> & -> & Hlen).
      exists (ode_t s1 :: a), (ode_y s1 :: b).
      rewrite <- !app_assoc. simpl. now rewrite Hlen.
    + injection Hrun as _ <- <-. exists [], []. now rewrite !app_nil_r.
Qed.

Lemma trajectory_starts (fuel : nat) (me : trappedsurface) (r t0 : R)
  (cond : R -> bool) (next : R -> R) s th Hs :
  trajectory fuel me r t0 cond next = Some (Ok (s, th, Hs)) ->
  exists a b, th = t0 :: a /\ Hs = (r, 0) :: b /\ length a = length b.
Proof.
  unfold trajectory. intros Hrun. apply sweep_extends in Hrun.
  destruct Hrun as (a & b & -> & -> & Hlen). now exists a, b.
Qed.

Lemma getitem_Ok_inv {A} (a : list A) (i : nat) (v : A) :
  getitem a i = Ok v -> nth_error a i = Some v.
Proof.
  unfold getitem. destruct (nth_error a i); [now intros [= ->] | discriminate].
Qed.

(** What the half turn looks like whenever it is returned. *)
Lemma half_turn_shape (fuel : nat) (full_horizon : bool)
  (me : trappedsurface) (radii : list R) (H : list SurfaceState)
  (half : list R) :
  half_turn fuel full_horizon me radii = Some (Ok (H, half)) ->
  exists r tl Hmid halfmid x,
    radii = r :: tl /\
    H = (r, 0) :: Hmid ++ [x] /\
    half = 0 :: halfmid ++ [PI] /\
    length Hmid = length halfmid.
Proof.
  unfold half_turn. intros Hrun.
  destruct radii as [|r tl]; [destruct (_ || _); discriminate|].
  change (getitem (r :: tl) 0) with (Ok r) in Hrun.
  destruct (full_horizon || negb (reflection_symmetric (ts_spacetime me))).
  - destruct (forward fuel me r) as [[[[s1 th1] H1]|e]|] eqn:Hfwd;
      try discriminate.
    destruct (getitem (r :: tl) 1) as [r1|e]; [|discriminate].
    destruct (backward fuel me r1) as [[[[s2 th2] H2]|e]|] eqn:Hbwd;
      try discriminate.
    injection Hrun as <- <-.
    apply trajectory_starts in Hfwd. destruct Hfwd as (a & b & -> & -> & L1).
    apply trajectory_starts in Hbwd. destruct Hbwd as (a2 & b2 & -> & -> & L2).
    exists r, tl, (b ++ rev b2), (a ++ rev a2), (r1, 0).
    split; [reflexivity|]. simpl. rewrite <- !app_assoc.
    repeat split. rewrite !length_app, !length_rev. lia.
  - destruct (forward fuel me r) as [[[[s1 th1] H1]|e]|] eqn:Hfwd;
      try discriminate.
    injection Hrun as <- <-.
    apply trajectory_starts in Hfwd. destruct Hfwd as (a & b & -> & -> & L1).
    exists r, tl, (b ++ rev b), (a ++ rev (map (fun t => PI - t) a)), (r, 0).
    split; [reflexivity|]. simpl. rewrite <- !app_assoc.
    replace (PI - 0) with PI by ring.
    repeat split. rewrite !length_app, !length_rev, length_map. lia.
Qed.

(** Every returned run, unfolded. *)
Lemma solve_given_r0_returned (fuel : nat) (full_horizon : bool)
  (w w' : world) :
  solve_given_r0 fuel full_horizon w = Some (Ok tt, w') ->
  exists radii H half,
    r0 (self w) = Some radii /\
    half_turn fuel full_horizon (self w) radii = Some (Ok (H, half)) /\
    w' = {| self := with_H_theta (self w) (H ++ rev H)
                      (half ++ map (fun t => t + PI) half);
            calls := calls w |}.
Proof.
  unfold solve_given_r0, getattr. intros Hrun.
  destruct (r0 (self w)) as [radii|]; [|discriminate].
  destruct (half_turn fuel full_horizon (self w) radii)
    as [[[H half]|e]|] eqn:Hhalf; try discriminate.
  unfold set_H_theta in Hrun. injection Hrun as <-.
  now exists radii, H, half.
Qed.

Lemma closed_curve_shape (r : R) (x : SurfaceState)
  (Hmid : list SurfaceState) (halfmid : list R) :
  length Hmid = length halfmid ->
  let H := (r, 0) :: Hmid ++ [x] in
  let half := 0 :: halfmid ++ [PI] in
  let Hs := H ++ rev H in
  let thetas := half ++ map (fun t => t + PI) half in
  length Hs = length thetas /\
  rev Hs = Hs /\
  nth_error thetas 0 = Some 0 /\
  nth_error Hs 0 = Some (r, 0) /\
  nth_error thetas (length thetas - 1) = Some (2 * PI) /\
  nth_error Hs (length Hs - 1) = Some (r, 0).
Proof.
  intros Hlen H half Hs thetas.
  assert (LH : length H = S (S (length Hmid)))
    by (unfold H; simpl; rewrite length_app; simpl; lia).
  assert (Lhalf : length half = S (S (length Hmid)))
    by (unfold half; simpl; rewrite length_app; simpl; lia).
  assert (LHs : length Hs = (2 * length H)%nat)
    by (unfold Hs; rewrite length_app, length_rev; lia).
  assert (Lth : length thetas = (2 * length half)%nat)
    by (unfold thetas; rewrite length_app, length_map; lia).
  split; [lia|].
  split; [apply rev_palindrome|].
  split; [reflexivity|]. split; [reflexivity|].
  split.
  - assert (Hlast : nth_error half (length half - 1) = Some PI).
    { rewrite Lhalf, Hlen. unfold half.
      change (0 :: halfmid ++ [PI]) with ((0 :: halfmid) ++ [PI]).
      replace (S (S (length halfmid)) - 1)%nat with (length (0 :: halfmid))
        by (simpl; lia).
      rewrite nth_error_app2 by lia. now rewrite Nat.sub_diag. }
    destruct (shifted_entries (fun t => t + PI) half _ _ Hlast) as [_ Hs2].
    fold thetas in Hs2.
    replace (length thetas - 1)%nat with (length half + (length half - 1))%nat
      by lia.
    rewrite Hs2. f_equal. ring.
  - assert (Hfirst : nth_error H 0 = Some (r, 0)) by reflexivity.
    destruct (mirrored_entries (fun y => y) H 0 (r, 0) Hfirst) as [_ Hm].
    rewrite map_id in Hm. fold Hs in Hm.
    replace (length Hs - 1)%nat with (2 * length H - 1 - 0)%nat by lia.
    exact Hm.
Qed.

(** X7: whenever [solve_given_r0] returns, in either mode and whatever the
    integrator did, as many states as angles are stored; the stored states
    read the same backwards; the first sample is the angle [0] with the
    state [(r0[0], 0)] and the last one the angle [2 pi] with that same
    state; [r0], the spacetime, the centre, the cartesian data and the
    trace are untouched. *)
Theorem solve_given_r0_closed_curve (fuel : nat) (full_horizon : bool)
  (w w' : world) :
  solve_given_r0 fuel full_horizon w = Some (Ok tt, w') ->
  exists r tl Hs thetas,
    r0 (self w) = Some (r :: tl) /\
    ts_H (self w') = Some Hs /\
    ts_theta (self w') = Some thetas /\
    length Hs = length thetas /\
    rev Hs = Hs /\
    nth_error thetas 0 = Some 0 /\
    nth_error Hs 0 = Some (r, 0) /\
    nth_error thetas (length thetas - 1) = Some (2 * PI) /\
    nth_error Hs (length Hs - 1) = Some (r, 0) /\
    r0 (self w') = r0 (self w) /\
    ts_spacetime (self w') = ts_spacetime (self w) /\
    z_centre (self w') = z_centre (self w) /\
    ts_cartesian (self w') = ts_cartesian (self w) /\
    calls w' = calls w.
Proof.
  intros Hrun.
  destruct (solve_given_r0_returned fuel full_horizon w w' Hrun)
    as (radii & H & half & Hr0 & Hhalf & ->).
  destruct (half_turn_shape _ _ _ _ _ _ Hhalf)
    as (r & tl & Hmid & halfmid & x & -> & -> & -> & Hlen).
  destruct (closed_curve_shape r x Hmid halfmid Hlen)
    as (L & Hpal & T0 & H0 & Tlast & Hlast).
  exists r, tl. do 2 eexists.
  split; [exact Hr0|].
  split; [reflexivity|]. split; [reflexivity|].
  split; [exact L|]. split; [exact Hpal|].
  split; [exact T0|]. split; [exact H0|].
  split; [exact Tlast|]. split; [exact Hlast|].
  repeat split.
Qed.


(** X9: an integrator step that comes back unsuccessful ends the loop
    without any error: in symmetric mode, when the very first step fails
    at the angle [t1] in the state [y1], [solve_given_r0] returns normally
    and stores the two samples it has, mirrored into eight. *)
Theorem solve_given_r0_hides_integrator_failure (fuel : nat) (w : world)
  (r : R) (tl : list R) (y1 : SurfaceState) (t1 : R) :
  reflection_symmetric (ts_spacetime (self w)) = true ->
  r0 (self w) = Some (r :: tl) ->
  (1 <= fuel)%nat ->
  dopri5 (expansion (self w)) 1e-8 1e-6 (r, 0) 0 (0 + dtheta)
  = Ok (y1, t1, false) ->
  solve_given_r0 fuel false w
  = Some (Ok tt,
          {| self :=
               with_H_theta (self w)
                 [(r, 0); y1; y1; (r, 0); (r, 0); y1; y1; (r, 0)]
                 [0; t1; PI - t1; PI - 0;
                  0 + PI; t1 + PI; PI - t1 + PI; PI - 0 + PI];
             calls := calls w |}).
Proof.
  intros Hsym Hr0 Hfuel Hfail.
  unfold solve_given_r0, getattr. rewrite Hr0. unfold half_turn.
  rewrite Hsym. simpl orb. cbv iota.
  change (getitem (r :: tl) 0) with (Ok r). cbv iota beta.
  assert (Hfwd : forward fuel (self w) r
                 = Some (Ok ({| ode_f := expansion (self w);
                                ode_atol := 1e-8; ode_rtol := 1e-6;
                                ode_y := y1; ode_t := t1;
                                ode_success := false |},
                             [0; t1], [(r, 0); y1]))).
  { unfold forward, trajectory. cbv zeta.
    destruct fuel as [|fuel]; [lia|].
    simpl sweep.
    change (ode_t (new_solver (self w) (r, 0) 0)) with 0.
    change (successful (new_solver (self w) (r, 0) 0)) with true.
    rewrite (Rltb_true 0 (PI / 2)) by (pose proof PI_RGT_0; lra).
    simpl andb. cbv iota.
    rewrite integrate_new_solver, Hfail, rbind_Ok.
    destruct fuel; reflexivity. }
  rewrite Hfwd. reflexivity.
Qed.

End SolveEdges.

Lemma solve_given_r0_closed_curve_witness :
  let w := {| self := with_r0 (trappedsurface_init schwarzschild 0) [1 / 2];
              calls := [] |} in
  exists w' r tl Hs thetas,
    @solve_given_r0 crude_numerics 50 false w = Some (Ok tt, w') /\
    r0 (self w) = Some (r :: tl) /\
    ts_H (self w') = Some Hs /\
    ts_theta (self w') = Some thetas /\
    length Hs = length thetas /\
    rev Hs = Hs /\
    nth_error thetas 0 = Some 0 /\
    nth_error Hs 0 = Some (r, 0) /\
    nth_error thetas (length thetas - 1) = Some (2 * PI) /\
    nth_error Hs (length Hs - 1) = Some (r, 0) /\
    r0 (self w') = r0 (self w) /\
    ts_spacetime (self w') = ts_spacetime (self w) /\
    z_centre (self w') = z_centre (self w) /\
    ts_cartesian (self w') = ts_cartesian (self w) /\
    calls w' = calls w.
Proof.
  intros w.
  destruct (@solve_given_r0_exact crude_numerics 50 false w [1 / 2])
    as (H & Hrun & _).
  - apply crude_reaches. reflexivity.
  - lia.
  - reflexivity.
  - simpl. lia.
  - destruct (@solve_given_r0_closed_curve crude_numerics 50 false w _ Hrun)
      as (r & tl & Hs & thetas & Hall).
    eexists. exists r, tl, Hs, thetas. split; [exact Hrun | exact Hall].
Defined.


Lemma solve_given_r0_hides_integrator_failure_witness :
  let w := {| self := with_r0 (trappedsurface_init schwarzschild 0) [1 / 2];
              calls := [] |} in
  @solve_given_r0 stuck_numerics 1 false w
  = Some (Ok tt,
          {| self :=
               with_H_theta (self w)
                 [(1 / 2, 0); (1 / 2, 0); (1 / 2, 0); (1 / 2, 0);
                  (1 / 2, 0); (1 / 2, 0); (1 / 2, 0); (1 / 2, 0)]
                 [0; 0; PI - 0; PI - 0;
                  0 + PI; 0 + PI; PI - 0 + PI; PI - 0 + PI];
             calls := calls w |}).
Proof.
  intros w.
  apply (@solve_given_r0_hides_integrator_failure stuck_numerics 1 w
           (1 / 2) [] (1 / 2, 0) 0).
  - reflexivity.
  - reflexivity.
  - lia.
  - reflexivity.
Defined.

(* ================================================================== *)
(** * [convert_to_cartesian] *)

Lemma combine_map_map {A B C D} (f : A -> C) (g : B -> D)
  (a : list A) (b : list B) :
  combine (map f a) (map g b)
  = map (fun p => (f (fst p), g (snd p))) (combine a b).
Proof.
  revert b. induction a as [|x a IH]; intros [|y b]; simpl;
    try reflexivity. now rewrite IH.
Qed.

Lemma combine_same_source {A B C} (f : A -> B) (g : A -> C) (l : list A) :
  combine (map f l) (map g l) = map (fun a => (f a, g a)) l.
Proof. induction l as [|a l IH]; simpl; [reflexivity | now rewrite IH]. Qed.

Lemma nth_error_combine_Some {A B} (a : list A) (b : list B) i x y :
  nth_error a i = Some x -> nth_error b i = Some y ->
  nth_error (combine a b) i = Some (x, y).
Proof.
  revert b i. induction a as [|u a IH]; intros [|v b] [|i]; simpl;
    try discriminate.
  - now intros [= ->] [= ->].
  - apply IH.
Qed.

(** Arrays of one length multiply entry by entry. *)
Lemma broadcast_mul_same_length (a b : list R) :
  length a = length b ->
  broadcast_mul a b = Ok (map (fun uv => fst uv * snd uv) (combine a b)).
Proof.
  intros Hlen. unfold broadcast_mul.
  destruct a as [|u [|u' a]]; destruct b as [|v [|v' b]];
    try discriminate; try reflexivity.
  now rewrite (proj2 (Nat.eqb_eq _ _) Hlen).
Qed.

(** A loop over [range(len(l))] that reads entry [i] of [l] maps over [l]. *)
Lemma mapM_reads {A B} (f : nat -> result B) (g : A -> B)
  (post pre : list A) :
  (forall i a, nth_error (pre ++ post) i = Some a -> f i = Ok (g a)) ->
  mapM f (seq (length pre) (length post)) = Ok (map g post).
Proof.
  revert pre. induction post as [|a post IH]; intros pre Hf.
  - reflexivity.
  - simpl. rewrite (Hf (length pre) a)
      by (rewrite nth_error_app2 by lia; now rewrite Nat.sub_diag).
    rewrite rbind_Ok.
    specialize (IH (pre ++ [a])). rewrite length_app in IH. simpl in IH.
    rewrite Nat.add_1_r in IH. rewrite IH; [reflexivity|].
    intros i b Hi. apply Hf. now rewrite <- app_assoc in Hi.
Qed.

Lemma list_set_app_at {A} (pre : list A) (u v : A) (k : nat) :
  k = length pre -> list_set (pre ++ [u]) k v = pre ++ [v].
Proof. intros ->. apply list_set_app_here. Qed.

Lemma linspace_split (a b : R) (n : nat) :
  linspace a b (S (S n))
  = map (fun i => INR i * ((b - a) / INR (S n)) + a) (seq 0 (S n)) ++ [b].
Proof.
  unfold linspace, range. cbv zeta.
  change (1 <? S (S n))%nat with true. cbv iota.
  replace (S (S n) - 1)%nat with (S n) by lia.
  rewrite (seq_S (S n)), map_app.
  apply list_set_app_at. now rewrite length_map, length_seq.
Qed.

(** The azimuthal angles: 20 of them, from [0] to [2 pi] inclusive. *)
Lemma azimuth_ends :
  let phi := linspace 0 (2 * PI) 20 in
  length phi = 20%nat /\
  nth_error phi 0 = Some 0 /\
  nth_error phi 19 = Some (2 * PI).
Proof.
  cbv zeta. rewrite (linspace_split 0 (2 * PI) 18).
  split; [now rewrite length_app, length_map, length_seq|].
  split.
  - simpl. f_equal. ring.
  - rewrite nth_error_app2 by (rewrite length_map, length_seq; lia).
    now rewrite length_map, length_seq.
Qed.

(** [convert_to_cartesian] on samples of one length. *)
Lemma convert_to_cartesian_value (w : world) (Hs : list SurfaceState)
  (thetas : list R) :
  ts_H (self w) = Some Hs ->
  ts_theta (self w) = Some thetas ->
  length Hs = length thetas ->
  convert_to_cartesian w
  = (Ok tt,
     {| self := with_cartesian (self w)
                  (cartesian_of (z_centre (self w)) Hs thetas);
        calls := calls w |}).
Proof.
  intros HH Hth Hlen.
  unfold convert_to_cartesian, mbind, getattr, get_self, lift, set_cartesian.
  rewrite HH, Hth.
  rewrite !broadcast_mul_same_length by (now rewrite !length_map).
  assert (Hrows :
    mapM (mesh_row Hs thetas (linspace 0 (2 * PI) 20)) (range (length thetas))
    = Ok (map (fun p =>
                 (map (fun ph => fst (fst p) * sin (snd p) * cos ph)
                      (linspace 0 (2 * PI) 20),
                  map (fun ph => fst (fst p) * sin (snd p) * sin ph)
                      (linspace 0 (2 * PI) 20),
                  map (fun ph => fst (fst p) * cos (snd p))
                      (linspace 0 (2 * PI) 20)))
              (combine Hs thetas))).
  { replace (length thetas) with (length (combine Hs thetas))
      by (rewrite length_combine; lia).
    apply (mapM_reads _ _ (combine Hs thetas) []).
    intros i [Ht th] Hi. apply nth_error_combine in Hi.
    destruct Hi as [Hi1 Hi2]. unfold mesh_row.
    now rewrite (getitem_Some _ _ _ Hi1), (getitem_Some _ _ _ Hi2). }
  rewrite Hrows. cbn [self calls].
  unfold cartesian_of. cbv zeta.
  rewrite !combine_map_map, !map_map. cbn [fst snd].
  reflexivity.
Qed.

(** Every mesh vertex lies at the distance [|h|] from the centre. *)
Lemma mesh_radius (h th ph : R) :
  sqrt ((h * sin th * cos ph) ^ 2 + (h * sin th * sin ph) ^ 2
        + (h * cos th) ^ 2) = Rabs h.
Proof.
  replace ((h * sin th * cos ph) ^ 2 + (h * sin th * sin ph) ^ 2
           + (h * cos th) ^ 2)
    with (Rsqr h * (Rsqr (sin th) * (Rsqr (sin ph) + Rsqr (cos ph))
                    + Rsqr (cos th)))
    by (unfold Rsqr; ring).
  rewrite sin2_cos2, Rmult_1_r, sin2_cos2, Rmult_1_r.
  apply sqrt_Rsqr_abs.
Qed.

(** X10: on stored samples of one length, [convert_to_cartesian] returns
    and stores as many [x] and [z] as there are samples; the point of the
    sample [(theta, h)] is [x = h sin(theta)], [z = z_centre + h cos(theta)],
    at the distance [|h|] from the centre: [x^2 + (z - z_centre)^2 = h^2]. *)
Theorem convert_to_cartesian_points (w : world) (Hs : list SurfaceState)
  (thetas : list R) :
  ts_H (self w) = Some Hs ->
  ts_theta (self w) = Some thetas ->
  length Hs = length thetas ->
  exists c,
    convert_to_cartesian w
    = (Ok tt, {| self := with_cartesian (self w) c; calls := calls w |}) /\
    length (ct_x c) = length thetas /\
    length (ct_z c) = length thetas /\
    forall i h dh th,
      nth_error Hs i = Some (h, dh) ->
      nth_error thetas i = Some th ->
      exists x z,
        nth_error (ct_x c) i = Some x /\
        nth_error (ct_z c) i = Some z /\
        x = h * sin th /\
        z = z_centre (self w) + h * cos th /\
        x ^ 2 + (z - z_centre (self w)) ^ 2 = h ^ 2.
Proof.
  intros HH Hth Hlen.
  exists (cartesian_of (z_centre (self w)) Hs thetas).
  split; [now apply convert_to_cartesian_value|].
  unfold cartesian_of. cbn [ct_x ct_z].
  rewrite !length_map, length_combine.
  split; [lia|]. split; [lia|].
  intros i h dh th Hi Hti.
  pose proof (nth_error_combine_Some _ _ _ _ _ Hi Hti) as Hp.
  do 2 eexists.
  split; [exact (map_nth_error _ _ _ Hp)|].
  split; [exact (map_nth_error _ _ _ Hp)|].
  cbn [fst snd]. split; [reflexivity|]. split; [reflexivity|].
  replace ((h * sin th) ^ 2 + (z_centre (self w) + h * cos th
                               - z_centre (self w)) ^ 2)
    with (h ^ 2 * (Rsqr (sin th) + Rsqr (cos th))) by (unfold Rsqr; ring).
  now rewrite sin2_cos2, Rmult_1_r.
Qed.

(** X11: on stored samples of one length, the meshes [X], [Y], [Z], [R]
    have one row per sample and 20 columns; every vertex of the row of the
    sample [(theta, h)] holds [R = |h|]; the first and the last column are
    the same points ([phi = 0] and [phi = 2 pi]), so the surface of
    revolution closes. *)
Theorem convert_to_cartesian_mesh (w : world) (Hs : list SurfaceState)
  (thetas : list R) :
  ts_H (self w) = Some Hs ->
  ts_theta (self w) = Some thetas ->
  length Hs = length thetas ->
  exists c,
    convert_to_cartesian w
    = (Ok tt, {| self := with_cartesian (self w) c; calls := calls w |}) /\
    length (ct_X c) = length thetas /\
    length (ct_R c) = length thetas /\
    forall t h dh th,
      nth_error Hs t = Some (h, dh) ->
      nth_error thetas t = Some th ->
      exists Xr Yr Zr Rr,
        nth_error (ct_X c) t = Some Xr /\
        nth_error (ct_Y c) t = Some Yr /\
        nth_error (ct_Z c) t = Some Zr /\
        nth_error (ct_R c) t = Some Rr /\
        length Xr = 20%nat /\ length Yr = 20%nat /\
        length Zr = 20%nat /\ length Rr = 20%nat /\
        (forall v, In v Rr -> v = Rabs h) /\
        nth_error Xr 0 = Some (h * sin th) /\
        nth_error Xr 19 = Some (h * sin th) /\
        nth_error Yr 0 = Some 0 /\
        nth_error Yr 19 = Some 0 /\
        (forall v, In v Zr -> v = h * cos th).
Proof.
  intros HH Hth Hlen.
  exists (cartesian_of (z_centre (self w)) Hs thetas).
  split; [now apply convert_to_cartesian_value|].
  unfold cartesian_of. cbn [ct_X ct_Y ct_Z ct_R].
  rewrite !length_map, length_combine.
  split; [lia|]. split; [lia|].
  intros t h dh th Ht Htt.
  pose proof (nth_error_combine_Some _ _ _ _ _ Ht Htt) as Hp.
  destruct azimuth_ends as (Lphi & P0 & P19).
  do 4 eexists.
  split; [exact (map_nth_error _ _ _ Hp)|].
  split; [exact (map_nth_error _ _ _ Hp)|].
  split; [exact (map_nth_error _ _ _ Hp)|].
  split; [exact (map_nth_error _ _ _ Hp)|].
  cbn [fst snd]. rewrite !length_map.
  split; [exact Lphi|]. split; [exact Lphi|].
  split; [exact Lphi|]. split; [exact Lphi|].
  split.
  { intros v Hv. apply in_map_iff in Hv. destruct Hv as (ph & <- & _).
    apply mesh_radius. }
  split; [rewrite nth_error_map, P0; simpl; rewrite cos_0; f_equal; ring|].
  split; [rewrite nth_error_map, P19; simpl; rewrite cos_2PI; f_equal; ring|].
  split; [rewrite nth_error_map, P0; simpl; rewrite sin_0; f_equal; ring|].
  split; [rewrite nth_error_map, P19; simpl; rewrite sin_2PI; f_equal; ring|].
  intros v Hv. apply in_map_iff in Hv. now destruct Hv as (ph & <- & _).
Qed.

Lemma convert_to_cartesian_points_witness :
  let w := {| self := with_H_theta (trappedsurface_init schwarzschild 0)
                        [(1 / 2, 0); (1 / 2, 0)] [0; PI];
              calls := [] |} in
  exists c,
    convert_to_cartesian w
    = (Ok tt, {| self := with_cartesian (self w) c; calls := calls w |}) /\
    length (ct_x c) = length [0; PI] /\
    length (ct_z c) = length [0; PI] /\
    forall i h dh th,
      nth_error [(1 / 2, 0); (1 / 2, 0)] i = Some (h, dh) ->
      nth_error [0; PI] i = Some th ->
      exists x z,
        nth_error (ct_x c) i = Some x /\
        nth_error (ct_z c) i = Some z /\
        x = h * sin th /\
        z = z_centre (self w) + h * cos th /\
        x ^ 2 + (z - z_centre (self w)) ^ 2 = h ^ 2.
Proof.
  intros w.
  apply (convert_to_cartesian_points w [(1 / 2, 0); (1 / 2, 0)] [0; PI]);
    reflexivity.
Defined.

Lemma convert_to_cartesian_mesh_witness :
  let w := {| self := with_H_theta (trappedsurface_init schwarzschild 0)
                        [(1 / 2, 0); (1 / 2, 0)] [0; PI];
              calls := [] |} in
  exists c,
    convert_to_cartesian w
    = (Ok tt, {| self := with_cartesian (self w) c; calls := calls w |}) /\
    length (ct_X c) = length [0; PI] /\
    length (ct_R c) = length [0; PI] /\
    forall t h dh th,
      nth_error [(1 / 2, 0); (1 / 2, 0)] t = Some (h, dh) ->
      nth_error [0; PI] t = Some th ->
      exists Xr Yr Zr Rr,
        nth_error (ct_X c) t = Some Xr /\
        nth_error (ct_Y c) t = Some Yr /\
        nth_error (ct_Z c) t = Some Zr /\
        nth_error (ct_R c) t = Some Rr /\
        length Xr = 20%nat /\ length Yr = 20%nat /\
        length Zr = 20%nat /\ length Rr = 20%nat /\
        (forall v, In v Rr -> v = Rabs h) /\
        nth_error Xr 0 = Some (h * sin th) /\
        nth_error Xr 19 = Some (h * sin th) /\
        nth_error Yr 0 = Some 0 /\
        nth_error Yr 19 = Some 0 /\
        (forall v, In v Zr -> v = h * cos th).
Proof.
  intros w.
  apply (convert_to_cartesian_mesh w [(1 / 2, 0); (1 / 2, 0)] [0; PI]);
    reflexivity.
Defined.

(* ================================================================== *)
(** * The methods in and out of order *)

Section Lifecycle.
Context {num : Numerics}.

(** X12: called out of order the methods raise [AttributeError] and change
    nothing: [solve_given_r0] when [r0] was never assigned, and
    [convert_to_cartesian] when no samples were stored - also right after
    a [find_r0], which stores none. *)
Theorem methods_out_of_order (w : world) :
  (r0 (self w) = None ->
   forall fuel full_horizon,
     solve_given_r0 fuel full_horizon w = Some (Raise AttributeError, w)) /\
  (ts_H (self w) = None ->
   convert_to_cartesian w = (Raise AttributeError, w) /\
   forall guess full_horizon,
     let w1 := snd (find_r0 guess full_horizon w) in
     convert_to_cartesian w1 = (Raise AttributeError, w1)).
Proof.
  split.
  - intros Hr0 fuel full_horizon. unfold solve_given_r0, getattr.
    now rewrite Hr0.
  - intros HH. split.
    + unfold convert_to_cartesian, mbind, getattr. now rewrite HH.
    + intros guess full_horizon w1.
      assert (HH1 : ts_H (self w1) = None)
        by (unfold w1; now rewrite find_r0_keeps_samples).
      unfold convert_to_cartesian, mbind, getattr. now rewrite HH1.
Qed.

(** Lengths of what a returned run stores. *)
Lemma solve_given_r0_lengths (fuel : nat) (full_horizon : bool)
  (w w' : world) :
  solve_given_r0 fuel full_horizon w = Some (Ok tt, w') ->
  exists Hs thetas,
    ts_H (self w') = Some Hs /\ ts_theta (self w') = Some thetas /\
    length Hs = length thetas.
Proof.
  intros Hrun.
  destruct (solve_given_r0_returned fuel full_horizon w w' Hrun)
    as (radii & H & half & Hr0 & Hhalf & ->).
  destruct (half_turn_shape _ _ _ _ _ _ Hhalf)
    as (r & tl & Hmid & halfmid & x & -> & -> & -> & Hlen).
  destruct (closed_curve_shape r x Hmid halfmid Hlen) as (L & _).
  do 2 eexists. split; [reflexivity|]. split; [reflexivity | exact L].
Qed.

(** X13: [convert_to_cartesian] called after a [solve_given_r0] that
    returned never raises, in either mode and whatever the integrator
    did: it stores one point and one mesh row per stored angle. *)
Theorem convert_after_solve (fuel : nat) (full_horizon : bool)
  (w w' : world) :
  solve_given_r0 fuel full_horizon w = Some (Ok tt, w') ->
  exists c thetas,
    convert_to_cartesian w'
    = (Ok tt, {| self := with_cartesian (self w') c; calls := calls w' |}) /\
    ts_theta (self w') = Some thetas /\
    length (ct_x c) = length thetas /\
    length (ct_z c) = length thetas /\
    length (ct_X c) = length thetas /\
    length (ct_R c) = length thetas.
Proof.
  intros Hrun.
  destruct (solve_given_r0_lengths fuel full_horizon w w' Hrun)
    as (Hs & thetas & HH & Hth & Hlen).
  exists (cartesian_of (z_centre (self w')) Hs thetas), thetas.
  split; [now apply convert_to_cartesian_value|].
  split; [exact Hth|].
  unfold cartesian_of. cbn [ct_x ct_z ct_X ct_R].
  rewrite !length_map, length_combine. repeat split; lia.
Qed.

End Lifecycle.

Lemma convert_after_solve_witness :
  let w := {| self := with_r0 (trappedsurface_init schwarzschild 0) [1 / 2];
              calls := [] |} in
  exists w' c thetas,
    @solve_given_r0 crude_numerics 50 false w = Some (Ok tt, w') /\
    convert_to_cartesian w'
    = (Ok tt, {| self := with_cartesian (self w') c; calls := calls w' |}) /\
    ts_theta (self w') = Some thetas /\
    length (ct_x c) = length thetas /\
    length (ct_z c) = length thetas /\
    length (ct_X c) = length thetas /\
    length (ct_R c) = length thetas.
Proof.
  intros w.
  destruct (@solve_given_r0_exact crude_numerics 50 false w [1 / 2])
    as (H & Hrun & _).
  - apply crude_reaches. reflexivity.
  - lia.
  - reflexivity.
  - simpl. lia.
  - destruct (@convert_after_solve crude_numerics 50 false w _ Hrun)
      as (c & thetas & Hall).
    eexists. exists c, thetas. split; [exact Hrun | exact Hall].
Defined.

(* ================================================================== *)
(** * [FindHorizonBinarySymmetric] when the first bracket works *)

Section HelperSuccess.
Context {num : Numerics}.

(** X14: when the first call of [brentq] returns [sol] and the integrator
    reaches every target, the helper returns the surface centred at [0]
    with [r0 = [sol]], the 204 angles, 204 states of which the first is
    [(sol, 0)], and the cartesian data of 204 points; [brentq] was called
    once and no scan was made. *)
Theorem two_body_first_bracket_succeeds (fuel : nat) (z mass sol : R) :
  let r0e := r0_empirical z mass in
  let f := shooting_function (two_body z mass) in
  brentq f (0.99 * r0e) (1.01 * r0e) = Ok sol ->
  dopri5_reaches num (expansion (two_body z mass)) 1e-8 1e-6 ->
  (50 <= fuel)%nat ->
  exists ts Hs c,
    FindHorizonBinarySymmetric fuel z mass
    = Some (Ok ts,
            {| self := ts;
               calls := [CallBrentq f (0.99 * r0e) (1.01 * r0e)] |}) /\
    z_centre ts = 0 /\
    ts_spacetime ts = spacetime_init [- z; z] [mass; mass] true /\
    r0 ts = Some [sol] /\
    ts_theta ts = Some full_angles /\
    ts_H ts = Some Hs /\
    length Hs = 204%nat /\
    nth_error Hs 0 = Some (sol, 0) /\
    ts_cartesian ts = Some c /\
    length (ct_x c) = 204%nat /\
    length (ct_z c) = 204%nat.
Proof.
  intros r0e f Hsol Hreach Hfuel. subst f.
  pose proof (retry_not_needed {| self := two_body z mass; calls := [] |}
                eq_refl r0e sol Hsol) as Hfind.
  cbn [self calls app] in Hfind.
  set (w1 := {| self := with_r0 (two_body z mass) [sol];
                calls := [CallBrentq (shooting_function (two_body z mass))
                            (0.99 * r0e) (1.01 * r0e)] |}) in *.
  destruct (solve_given_r0_exact fuel false w1 [sol] Hreach Hfuel eq_refl)
    as (Hs & Hrun & HlenH); [simpl; lia|].
  destruct (solve_given_r0_returned fuel false w1 _ Hrun)
    as (radii & H & half & Hr0 & Hhalf & Hw).
  injection Hr0 as <-.
  destruct (half_turn_shape _ _ _ _ _ _ Hhalf)
    as (r & tl & Hmid & halfmid & x & Hrad & -> & -> & Hlen).
  injection Hrad as <- <-.
  injection Hw as HHs _. 
  set (w2 := {| self := with_H_theta (self w1) Hs full_angles;
                calls := calls w1 |}) in *.
  assert (Hconv := convert_to_cartesian_value w2 Hs full_angles
                     eq_refl eq_refl).
  rewrite HlenH, full_angles_length in Hconv. specialize (Hconv eq_refl).
  do 3 eexists. split.
  - unfold FindHorizonBinarySymmetric. cbv zeta.
    change (trappedsurface_init (spacetime_init [- z; z] [mass; mass] true) 0)
      with (two_body z mass).
    fold r0e. rewrite Hfind. rewrite Hrun. rewrite Hconv.
    reflexivity.
  - cbn [self z_centre ts_spacetime r0 ts_theta ts_H ts_cartesian
         with_cartesian with_H_theta with_r0 w2 w1 calls].
    split; [reflexivity|]. split; [reflexivity|]. split; [reflexivity|].
    split; [reflexivity|]. split; [reflexivity|]. split; [exact HlenH|].
    split; [rewrite HHs; reflexivity|].
    split; [reflexivity|].
    unfold cartesian_of. cbn [ct_x ct_z].
    rewrite !length_map, length_combine, HlenH, full_angles_length.
    split; reflexivity.
Qed.

End HelperSuccess.

(** Two unit masses at the same point: the crude objective changes sign
    across the first bracket. *)
Lemma merged_pair_objective (r : R) :
  0 < r ->
  @shooting_function crude_numerics (two_body 0 1) r
  = Ok (0 + (PI / 2 - 0) * (2 * r * (r - 1) / (r + 1))).
Proof.
  intros Hr. rewrite euler_shooting_function by reflexivity.
  rewrite two_body_d2h_axis by lra. do 3 f_equal. field.
  split; [nra|]. split; nra.
Qed.

Lemma two_body_first_bracket_succeeds_witness :
  let r0e := r0_empirical 0 1 in
  let f := @shooting_function crude_numerics (two_body 0 1) in
  exists ts Hs c,
    @FindHorizonBinarySymmetric crude_numerics 50 0 1
    = Some (Ok ts,
            {| self := ts;
               calls := [CallBrentq f (0.99 * r0e) (1.01 * r0e)] |}) /\
    z_centre ts = 0 /\
    ts_spacetime ts = spacetime_init [- 0; 0] [1; 1] true /\
    r0 ts = Some [(0.99 * r0e + 1.01 * r0e) / 2] /\
    ts_theta ts = Some full_angles /\
    ts_H ts = Some Hs /\
    length Hs = 204%nat /\
    nth_error Hs 0 = Some ((0.99 * r0e + 1.01 * r0e) / 2, 0) /\
    ts_cartesian ts = Some c /\
    length (ct_x c) = 204%nat /\
    length (ct_z c) = 204%nat.
Proof.
  intros r0e f.
  assert (Hr0e : r0e = 1) by (unfold r0e, r0_empirical; lra).
  apply (@two_body_first_bracket_succeeds crude_numerics 50 0 1
           ((0.99 * r0e + 1.01 * r0e) / 2)).
  - fold r0e. fold f.
    change (midpoint_brentq f (0.99 * r0e) (1.01 * r0e)
            = Ok ((0.99 * r0e + 1.01 * r0e) / 2)).
    unfold midpoint_brentq, f.
    rewrite !merged_pair_objective by (rewrite Hr0e; lra).
    rewrite !rbind_Ok. rewrite Rltb_false; [reflexivity|].
    rewrite Hr0e. pose proof PI_RGT_0 as Hpi.
    assert (Ha : 2 * (0.99 * 1) * (0.99 * 1 - 1) / (0.99 * 1 + 1) < 0)
      by (apply negative_quotient; lra).
    assert (Hb : 0 < 2 * (1.01 * 1) * (1.01 * 1 - 1) / (1.01 * 1 + 1))
      by (apply Rdiv_lt_0_compat; lra).
    nra.
  - apply crude_reaches. reflexivity.
  - lia.
Defined.

(* ================================================================== *)
(** * The empirical guess and its window *)

Lemma affine_increasing (a step : R) (s n : nat) :
  0 < step ->
  StronglySorted Rlt (map (fun i => INR i * step + a) (seq s n)).
Proof.
  intros Hstep. revert s. induction n as [|n IH]; intros s; simpl;
    constructor.
  - apply IH.
  - apply Forall_forall. intros x Hx. apply in_map_iff in Hx.
    destruct Hx as (k & <- & Hk). apply in_seq in Hk.
    assert (INR s < INR k) by (apply lt_INR; lia). nra.
Qed.

Lemma sorted_snoc (l : list R) (b : R) :
  StronglySorted Rlt l -> (forall x, In x l -> x < b) ->
  StronglySorted Rlt (l ++ [b]).
Proof.
  induction 1 as [|x l Hl IH Hx]; intros Hb; simpl.
  - repeat constructor.
  - constructor.
    + apply IH. intros y Hy. apply Hb. now right.
    + apply Forall_app. split; [exact Hx|].
      constructor; [|constructor]. apply Hb. now left.
Qed.

(** The candidates run upwards through the window. *)
Lemma candidates_increasing (r0e : R) :
  0 < r0e -> StronglySorted Rlt (candidates r0e).
Proof.
  intros Hpos. unfold candidates. rewrite linspace_50.
  assert (H49 : INR 49 = 49) by (rewrite INR_IZR_INZ; reflexivity).
  apply sorted_snoc.
  - apply affine_increasing. rewrite H49. lra.
  - intros x Hx. apply in_map_iff in Hx. destruct Hx as (i & <- & Hi).
    apply in_seq in Hi.
    assert (Hi48 : INR i <= INR 49 - 1) by (apply INR_below; lia).
    assert (H0 : 0 <= INR i) by apply pos_INR.
    rewrite H49 in *.
    assert (Hp : INR i * r0e <= 48 * r0e) by nra.
    lra.
Qed.

Lemma empirical_cubic_positive (z : R) :
  0 <= z <= 2 -> 0 < 1 - 0.0383 * z + 0.945 * z ^ 2 - 0.522 * z ^ 3.
Proof.
  intros [H0 H2].
  assert (Hsq : 0 <= z ^ 2 <= 4) by nra.
  assert (Hcube : z ^ 3 <= 2 * z ^ 2) by nra.
  lra.
Qed.

Lemma empirical_cubic_negative (z : R) :
  5 / 2 <= z -> 1 - 0.0383 * z + 0.945 * z ^ 2 - 0.522 * z ^ 3 < 0.
Proof.
  intros Hz.
  assert (Hsq : 25 / 4 <= z ^ 2) by nra.
  assert (Hcube : 5 / 2 * z ^ 2 <= z ^ 3) by nra.
  lra.
Qed.

(** X15: for a positive mass the empirical guess is positive as long as
    [0 <= z <= 2]: the first bracket is then [0 < lo < hi] and the 50
    candidates run strictly upwards from [0.95] to [1.05] times the guess.
    From [z = 2.5] on the guess is negative and the first bracket is
    handed to [brentq] upside down, between negative radii. *)
Theorem empirical_guess_range (z mass : R) :
  0 < mass ->
  let r0e := r0_empirical z mass in
  (0 <= z <= 2 ->
   0 < r0e /\
   0 < 0.99 * r0e < 1.01 * r0e /\
   StronglySorted Rlt (candidates r0e) /\
   nth_error (candidates r0e) 0 = Some (0.95 * r0e) /\
   nth_error (candidates r0e) 49 = Some (1.05 * r0e) /\
   (forall c, In c (candidates r0e) -> 0 < 0.95 * r0e <= c)) /\
  (5 / 2 <= z ->
   r0e < 0 /\ 1.01 * r0e < 0.99 * r0e < 0).
Proof.
  intros Hm r0e. split.
  - intros Hz.
    assert (Hpos : 0 < r0e).
    { unfold r0e, r0_empirical. apply Rmult_lt_0_compat; [exact Hm|].
      now apply empirical_cubic_positive. }
    split; [exact Hpos|]. split; [lra|].
    split; [now apply candidates_increasing|].
    split; [apply candidates_first|]. split; [apply candidates_far|].
    intros c Hc. apply (candidates_window r0e c Hpos) in Hc. lra.
  - intros Hz.
    assert (Hneg : r0e < 0).
    { unfold r0e, r0_empirical.
      pose proof (empirical_cubic_negative z Hz). nra. }
    split; [exact Hneg | lra].
Qed.

Lemma empirical_guess_range_witness :
  let r0e := r0_empirical 0.5 1 in
  (0 <= 0.5 <= 2 ->
   0 < r0e /\
   0 < 0.99 * r0e < 1.01 * r0e /\
   StronglySorted Rlt (candidates r0e) /\
   nth_error (candidates r0e) 0 = Some (0.95 * r0e) /\
   nth_error (candidates r0e) 49 = Some (1.05 * r0e) /\
   (forall c, In c (candidates r0e) -> 0 < 0.95 * r0e <= c)) /\
  (5 / 2 <= 0.5 ->
   r0e < 0 /\ 1.01 * r0e < 0.99 * r0e < 0).
Proof.
  apply (empirical_guess_range 0.5 1). lra.
Defined.

(* ================================================================== *)
(** * The second half of the stored turn, and the two-step use *)

Section SecondHalf.
Context {num : Numerics}.

(** X16: whenever [solve_given_r0] returns, in either mode, the [2n]
    stored samples pair up: the angle stored at [n + i] is the angle stored
    at [i] plus [pi], and the state stored there is, entry for entry, the
    state stored at [n - 1 - i], with neither component negated. *)
Theorem second_half_mirrors_first (fuel : nat) (full_horizon : bool)
  (w w' : world) :
  solve_given_r0 fuel full_horizon w = Some (Ok tt, w') ->
  exists Hs thetas n,
    ts_H (self w') = Some Hs /\
    ts_theta (self w') = Some thetas /\
    length Hs = (2 * n)%nat /\
    length thetas = (2 * n)%nat /\
    forall i th,
      (i < n)%nat ->
      nth_error thetas i = Some th ->
      nth_error thetas (n + i) = Some (th + PI) /\
      exists y,
        nth_error Hs (n - 1 - i) = Some y /\
        nth_error Hs (n + i) = Some y.
Proof.
  intros Hrun.
  destruct (solve_given_r0_returned fuel full_horizon w w' Hrun)
    as (radii & H & half & Hr0 & Hhalf & ->).
  destruct (half_turn_shape _ _ _ _ _ _ Hhalf)
    as (r & tl & Hmid & halfmid & x & _ & HH & Hh & Hlen).
  assert (Hn : length H = length half).
  { rewrite HH, Hh. simpl. rewrite !length_app. simpl. lia. }
  exists (H ++ rev H), (half ++ map (fun t => t + PI) half), (length half).
  split; [reflexivity|]. split; [reflexivity|].
  split; [rewrite length_app, length_rev; lia|].
  split; [rewrite length_app, length_map; lia|].
  intros i th Hi Hth.
  rewrite nth_error_app1 in Hth by exact Hi.
  split; [exact (proj2 (shifted_entries _ half i th Hth))|].
  destruct (nth_error H (length half - 1 - i)) as [y|] eqn:Hy;
    [|apply nth_error_None in Hy; lia].
  exists y. split.
  - rewrite nth_error_app1 by lia. exact Hy.
  - rewrite nth_error_app2 by lia.
    apply nth_error_rev_mirror in Hy.
    replace (length half + i - length H)%nat
      with (length H - 1 - (length half - 1 - i))%nat by lia.
    exact Hy.
Qed.

(** X17: the two-step use in general mode.  When [root] hands back a
    result for a two-entry guess, converged or not, and keeps its shape,
    and the integrator reaches every target, [find_r0] followed by
    [solve_given_r0] returns: the iterate is stored as [r0] and the 204
    angles and as many states are stored. *)
Theorem find_then_solve_general (fuel : nat) (full_horizon : bool)
  (w : world) (a b : R) (sol : OptimizeResult) :
  full_horizon || negb (reflection_symmetric (ts_spacetime (self w))) = true ->
  root_keeps_shape num ->
  root (shooting_function_full (self w)) [a; b] 1e-12 = Ok sol ->
  dopri5_reaches num (expansion (self w)) 1e-8 1e-6 ->
  (50 <= fuel)%nat ->
  exists w1 w2 Hs,
    find_r0 [a; b] full_horizon w = (Ok tt, w1) /\
    solve_given_r0 fuel full_horizon w1 = Some (Ok tt, w2) /\
    r0 (self w2) = Some (opt_x sol) /\
    length (opt_x sol) = 2%nat /\
    ts_theta (self w2) = Some full_angles /\
    ts_H (self w2) = Some Hs /\
    length Hs = 204%nat.
Proof.
  intros Hmode Hshape Hsol Hreach Hfuel.
  pose proof (find_r0_general w [a; b] full_horizon Hmode) as Hfind.
  cbv zeta in Hfind. rewrite Hsol in Hfind.
  pose proof (Hshape _ _ _ _ Hsol) as Hlen. simpl in Hlen.
  set (w1 := {| self := with_r0 (self w) (opt_x sol);
                calls := calls w
                         ++ [CallRoot (shooting_function_full (self w))
                               [a; b] 1e-12] |}) in *.
  destruct (solve_given_r0_exact fuel full_horizon w1 (opt_x sol))
    as (Hs & Hrun & HlenH).
  - exact Hreach.
  - exact Hfuel.
  - reflexivity.
  - rewrite Hlen. destruct (_ || _); lia.
  - exists w1. eexists. exists Hs.
    split; [exact Hfind|]. split; [exact Hrun|].
    repeat split; assumption.
Qed.

End SecondHalf.

Lemma second_half_mirrors_first_witness :
  let w := {| self := with_r0 (trappedsurface_init schwarzschild 0)
                        [1 / 2; 1 / 2];
              calls := [] |} in
  exists w' Hs thetas n,
    @solve_given_r0 crude_numerics 50 true w = Some (Ok tt, w') /\
    ts_H (self w') = Some Hs /\
    ts_theta (self w') = Some thetas /\
    length Hs = (2 * n)%nat /\
    length thetas = (2 * n)%nat /\
    forall i th,
      (i < n)%nat ->
      nth_error thetas i = Some th ->
      nth_error thetas (n + i) = Some (th + PI) /\
      exists y,
        nth_error Hs (n - 1 - i) = Some y /\
        nth_error Hs (n + i) = Some y.
Proof.
  intros w.
  destruct (@solve_given_r0_exact crude_numerics 50 true w [1 / 2; 1 / 2])
    as (H & Hrun & _).
  - apply crude_reaches. reflexivity.
  - lia.
  - reflexivity.
  - simpl. lia.
  - destruct (@second_half_mirrors_first crude_numerics 50 true w _ Hrun)
      as (Hs & thetas & n & Hall).
    eexists. exists Hs, thetas, n. split; [exact Hrun | exact Hall].
Defined.

Lemma find_then_solve_general_witness :
  let w := {| self := trappedsurface_init binary 0; calls := [] |} in
  exists sol w1 w2 Hs,
    @find_r0 crude_numerics [1; 1] false w = (Ok tt, w1) /\
    @solve_given_r0 crude_numerics 50 false w1 = Some (Ok tt, w2) /\
    r0 (self w2) = Some (opt_x sol) /\
    length (opt_x sol) = 2%nat /\
    ts_theta (self w2) = Some full_angles /\
    ts_H (self w2) = Some Hs /\
    length Hs = 204%nat.
Proof.
  intros w.
  destruct (euler_shooting_function_full (self w) 1 1 eq_refl) as [fx Hfx].
  assert (Hroot :
    @root crude_numerics (@shooting_function_full crude_numerics (self w))
      [1; 1] 1e-12
    = Ok {| opt_x := [1; 1]; opt_success := false; opt_fun := fx |}).
  { change (stalled_root (@shooting_function_full crude_numerics (self w))
              [1; 1] 1e-12
            = Ok {| opt_x := [1; 1]; opt_success := false; opt_fun := fx |}).
    unfold stalled_root. now rewrite Hfx. }
  exists {| opt_x := [1; 1]; opt_success := false; opt_fun := fx |}.
  apply (@find_then_solve_general crude_numerics 50 false w 1 1 _
           eq_refl crude_root_keeps_shape Hroot).
  - apply crude_reaches. reflexivity.
  - lia.
Defined.
